(** * gqlalchemy.transformations: NetworkX graph to Cypher statements,
      and the partitioned parallel loader

    A shallow embedding of [src/gqlalchemy/transformations.py].

    - Python dictionaries are insertion ordered, and the order shows in the
      generated text, so an attribute mapping is an association list with
      unique keys, with the dict operations the source uses.
    - The generators mutate the attribute mappings of the graph they walk
      ([properties["id"] = nx_id], [properties.pop("type", None)]), so every
      generator threads the graph through explicitly.
    - The two literal encoders [to_cypher_labels] and [to_cypher_properties]
      live in [gqlalchemy.utilities]; they are an interface here.
    - A worker process is a small machine driven by what the database
      answers.  The parallel loader is given twice: worker by worker, each
      against its own answers, for what the call returns; and as an
      interleaving of the parent and its processes, for what happens
      before what.  The two agree on every call that returns. *)

From Stdlib Require Import String Ascii ZArith Lia Bool Arith PeanoNat List.
From Stdlib Require Import DecimalString.
Import ListNotations.

#[local] Open Scope string_scope.
#[local] Open Scope list_scope.
#[local] Set Warnings "-register-all".

(* ===================================================================== *)
(** ** Values and attribute mappings *)
(* ===================================================================== *)

(** Attribute values ([Any] in the source): the primitive values and nested
    lists of them. *)
Inductive value : Type :=
| VNone
| VBool (b : bool)
| VInt (z : Z)
| VStr (s : string)
| VList (l : list value).

(** [Dict[str, Any]]: keys in insertion order, each key at most once. *)
Definition dict : Type := list (string * value).

(** [k in d] *)
Definition dict_contains (k : string) (d : dict) : bool :=
  existsb (fun kv => String.eqb (fst kv) k) d.

(** [d.get(k)] with [None] for a missing key *)
Fixpoint dict_get (k : string) (d : dict) : option value :=
  match d with
  | [] => None
  | (k', v) :: d' => if String.eqb k' k then Some v else dict_get k d'
  end.

(** [d.get(k, default)] *)
Definition dict_get_default (k : string) (default : value) (d : dict) : value :=
  match dict_get k d with
  | Some v => v
  | None => default
  end.

(** [d[k] = v]: an existing key keeps its position, a new key goes last. *)
Fixpoint dict_set (k : string) (v : value) (d : dict) : dict :=
  match d with
  | [] => [(k, v)]
  | (k', v') :: d' =>
      if String.eqb k' k then (k, v) :: d' else (k', v') :: dict_set k v d'
  end.

(** [d.pop(k, None)], result discarded: the entry of [k] is removed (keys are
    unique, so dropping the entries of [k] drops that one entry). *)
Definition dict_pop (k : string) (d : dict) : dict :=
  filter (fun kv => negb (String.eqb (fst kv) k)) d.

(** [{k: v for k, v in d.items() if k != key}] *)
Definition dict_without (key : string) (d : dict) : dict :=
  filter (fun kv => negb (String.eqb (fst kv) key)) d.


(* ===================================================================== *)
(** ** Constants and the encoder interface *)
(* ===================================================================== *)

Module NetworkXGraphConstants.
Definition LABELS : string := "labels".
Definition TYPE : string := "type".
Definition ID : string := "id".
End NetworkXGraphConstants.
Import NetworkXGraphConstants.

(** [gqlalchemy.utilities.to_cypher_labels] and [to_cypher_properties]. *)
Class LiteralEncoder : Type := {
  to_cypher_labels : value -> string;
  to_cypher_properties : dict -> string
}.

(** [str(n)] of a Python [int], as an f-string renders it. *)
Definition str_int (n : Z) : string := NilZero.string_of_int (Z.to_int n).

(* ===================================================================== *)
(** ** The graph *)
(* ===================================================================== *)

(** What the source reads of a [networkx] graph: [graph.nodes(data=True)]
    and [graph.edges(data=True)] in their iteration order, each entry with
    the attribute mapping the graph itself holds (not a copy). *)
Record Graph : Type := {
  nodes : list (Z * dict);
  edges : list (Z * Z * dict)
}.

Inductive exn : Type :=
| KeyError (k : Z)
| ZeroDivisionError.

(** [graph.nodes[n]] *)
Fixpoint nodes_getitem (n : Z) (ns : list (Z * dict)) : option dict :=
  match ns with
  | [] => None
  | (n', d) :: ns' => if Z.eqb n' n then Some d else nodes_getitem n ns'
  end.

(* ===================================================================== *)
(** ** Statement generation *)
(* ===================================================================== *)

(** The property mapping of a node after the [id] default of
    [_create_node] (lines 95-96). *)
Definition with_default_id (nx_id : Z) (properties : dict) : dict :=
  if dict_contains "id" properties then properties
  else dict_set "id" (VInt nx_id) properties.

(** What [_create_node] hands to [to_cypher_properties] (line 98). *)
Definition node_properties (nx_id : Z) (properties : dict) : dict :=
  dict_without LABELS (with_default_id nx_id properties).

(** What [_create_edge] hands to [to_cypher_properties] (lines 113-114). *)
Definition edge_properties (properties : dict) : dict :=
  dict_pop TYPE properties.

(** The f-string of line 101. *)
Definition node_statement (labels_str properties_str : string) : string :=
  ("CREATE (" ++ labels_str ++ " " ++ properties_str ++ ");")%string.

(** The f-string of line 118. *)
Definition edge_statement (from_label_str : string) (from_id : Z)
    (to_label_str : string) (to_id : Z) (edge_type properties_str : string)
  : string :=
  ("MATCH (n" ++ from_label_str ++ " {id: " ++ str_int from_id ++ "}), (m"
     ++ to_label_str ++ " {id: " ++ str_int to_id ++ "}) CREATE (n)-["
     ++ edge_type ++ " " ++ properties_str ++ "]->(m);")%string.

(** [_create_node]: the statement, and the mapping it was given as the call
    leaves it. *)
Definition _create_node `{LiteralEncoder} (nx_id : Z) (properties : dict)
  : string * dict :=
  let properties := with_default_id nx_id properties in
  let labels_str :=
    to_cypher_labels (dict_get_default LABELS (VStr EmptyString) properties) in
  let properties_without_labels := dict_without LABELS properties in
  let properties_str := to_cypher_properties properties_without_labels in
  (node_statement labels_str properties_str, properties).

(** [_create_edge]: the statement, and the edge mapping as the call leaves
    it. *)
Definition _create_edge `{LiteralEncoder} (from_id to_id : Z)
    (from_label to_label : value) (properties : dict) : string * dict :=
  let edge_type := to_cypher_labels (dict_get_default TYPE (VStr "TO") properties) in
  let properties := dict_pop TYPE properties in
  let properties_str := to_cypher_properties properties in
  let from_label_str := to_cypher_labels from_label in
  let to_label_str := to_cypher_labels to_label in
  (edge_statement from_label_str from_id to_label_str to_id edge_type
     properties_str,
   properties).

(** A generator driven to its end: the items it yielded, the exception that
    ended it (if one did), and the graph as it left it. *)
Record generated : Type := {
  yielded : list string;
  raised : option exn;
  graph_after : Graph
}.

(** The loop of [_nx_nodes_to_cypher] over the node entries. *)
Fixpoint nodes_loop `{LiteralEncoder} (ns : list (Z * dict))
  : list string * list (Z * dict) :=
  match ns with
  | [] => ([], [])
  | (nx_id, data) :: ns' =>
      let (stmt, data') := _create_node nx_id data in
      let (stmts, ns'') := nodes_loop ns' in
      (stmt :: stmts, (nx_id, data') :: ns'')
  end.

Definition _nx_nodes_to_cypher `{LiteralEncoder} (graph : Graph) : generated :=
  let (stmts, ns) := nodes_loop (nodes graph) in
  {| yielded := stmts; raised := None;
     graph_after := {| nodes := ns; edges := edges graph |} |}.

(** The loop of [_nx_edges_to_cypher] over the edge entries; [ns] are the
    node entries [graph.nodes[..]] reads.  An endpoint that is no node ends
    the generator with [KeyError]; the edges not reached stay as they
    are. *)
Fixpoint edges_loop `{LiteralEncoder} (ns : list (Z * dict))
    (es : list (Z * Z * dict))
  : list string * option exn * list (Z * Z * dict) :=
  match es with
  | [] => ([], None, [])
  | (n1, n2, data) :: es' =>
      match nodes_getitem n1 ns with
      | None => ([], Some (KeyError n1), es)
      | Some d1 =>
          let from_label := dict_get_default LABELS (VStr EmptyString) d1 in
          match nodes_getitem n2 ns with
          | None => ([], Some (KeyError n2), es)
          | Some d2 =>
              let to_label := dict_get_default LABELS (VStr EmptyString) d2 in
              let (stmt, data') := _create_edge n1 n2 from_label to_label data in
              let '(stmts, e, es'') := edges_loop ns es' in
              (stmt :: stmts, e, (n1, n2, data') :: es'')
          end
      end
  end.

Definition _nx_edges_to_cypher `{LiteralEncoder} (graph : Graph) : generated :=
  let '(stmts, e, es) := edges_loop (nodes graph) (edges graph) in
  {| yielded := stmts; raised := e;
     graph_after := {| nodes := nodes graph; edges := es |} |}.

(** [nx_to_cypher]: the node generator, then the edge generator on the
    graph the node generator left. *)
Definition nx_to_cypher `{LiteralEncoder} (graph : Graph) : generated :=
  let r1 := _nx_nodes_to_cypher graph in
  match raised r1 with
  | Some e => r1
  | None =>
      let r2 := _nx_edges_to_cypher (graph_after r1) in
      {| yielded := yielded r1 ++ yielded r2; raised := raised r2;
         graph_after := graph_after r2 |}
  end.

(** [list(gen)] *)
Definition list_of (r : generated) : list string + exn :=
  match raised r with
  | None => inl (yielded r)
  | Some e => inr e
  end.

(* ===================================================================== *)
(** ** Partitioning (lines 44-48) *)
(* ===================================================================== *)

(** [l[lo:hi]] for indices that are not negative: Python clamps both ends
    to the length, and gives the empty list when [hi <= lo]. *)
Definition slice {A : Type} (lo hi : nat) (l : list A) : list A :=
  firstn (hi - lo) (skipn lo l).

(** [a // b] on non-negative integers. *)
Definition floordiv (a b : nat) : nat + exn :=
  if Nat.eqb b 0 then inr ZeroDivisionError else inl (a / b).

(** The slices of lines 47-48, one per [i] of [range(num_of_processes)]. *)
Definition process_queries (queries : list string)
    (num_of_processes chunk_size : nat) : list (list string) :=
  map (fun i => slice (i * chunk_size) (chunk_size * (i + 1)) queries)
      (seq 0 num_of_processes).

(** Lines 45-48: the chunk size, then the chunk of every process. *)
Definition partition (queries : list string) (num_of_processes : nat)
  : list (list string) + exn :=
  match floordiv (length queries) num_of_processes with
  | inr e => inr e
  | inl chunk_size => inl (process_queries queries num_of_processes chunk_size)
  end.

(** The sum of the chunk lengths. *)
Definition total_length {A : Type} (ls : list (list A)) : nat :=
  list_sum (map (@length A) ls).

(* ===================================================================== *)
(** ** One worker: [_insert_queries] (lines 61-76) *)
(* ===================================================================== *)

(** What the database does with one pass through the body of the [while]:
    the [try] block (lines 66-69) and the [commit] after it (line 76). *)
Inductive response : Type :=
| Executed                          (* the try block and the commit went through *)
| DatabaseError (msg : string)      (* mgclient.DatabaseError in the try block *)
| IndexError                        (* IndexError in the try block *)
| OtherError                        (* any other exception in the try block *)
| CommitError.                      (* the try block went through, commit raised *)

(** What the environment answers a worker. *)
Inductive answer : Type :=
| Connected                         (* mgclient.connect returned *)
| ConnectFailed                     (* mgclient.connect raised *)
| Reply (r : response).

(** What a worker does to the outside. *)
Inductive event : Type :=
| Connect (host : string) (port : Z)
| Execute (query : string)
| Commit
| Warning (msg : string)
| Exit.                              (* the process has terminated *)

(** Where a worker stands. *)
Inductive wstate : Type :=
| Connecting (queries : list string)   (* line 63 *)
| Looping (queries : list string)      (* about to run the loop body, connected *)
| Finished                             (* _insert_queries returned *)
| Died.                                (* an exception left _insert_queries *)

Definition terminated (w : wstate) : bool :=
  match w with
  | Finished | Died => true
  | _ => false
  end.

(** The message of line 74. *)
Definition warning_text (msg : string) : string :=
  ("Ignoring database error: " ++ msg)%string.

(** [queries.pop()]: the last element, and the list without it. *)
Definition pop (queries : list string) : option (string * list string) :=
  match rev queries with
  | [] => None
  | query :: r => Some (query, rev r)
  end.

(** The statement the next pass of the loop attempts. *)
Definition next_query (w : wstate) : option string :=
  match w with
  | Looping queries => option_map fst (pop queries)
  | _ => None
  end.

(** Line 64: the loop test. *)
Definition loop_test (queries : list string) : wstate * list event :=
  match queries with
  | [] => (Finished, [Exit])
  | _ :: _ => (Looping queries, [])
  end.

(** One pass through the loop body (lines 65-76), then the loop test. *)
Definition loop_body (r : response) (queries : list string)
  : wstate * list event :=
  match pop queries with
  | None => (Finished, [Exit])                       (* IndexError: break *)
  | Some (query, queries) =>
      match r with
      | Executed =>
          let (w, evs) := loop_test queries in
          (w, Execute query :: Commit :: evs)
      | DatabaseError msg =>
          let queries := queries ++ [query] in
          let (w, evs) := loop_test queries in
          (w, Execute query :: Warning (warning_text msg) :: evs)
      | IndexError => (Finished, [Execute query; Exit])
      | OtherError => (Died, [Execute query; Exit])
      | CommitError => (Died, [Execute query; Commit; Exit])
      end
  end.

(** One step of a worker; [None] when the answer is not one the worker is
    waiting for. *)
Definition wstep (host : string) (port : Z) (a : answer) (w : wstate)
  : option (wstate * list event) :=
  match w, a with
  | Connecting queries, Connected =>
      let (w', evs) := loop_test queries in
      Some (w', Connect host port :: evs)
  | Connecting _, ConnectFailed => Some (Died, [Connect host port; Exit])
  | Looping queries, Reply r => Some (loop_body r queries)
  | _, _ => None
  end.

(** A worker run against the answers it gets, in order; an answer the
    worker is not waiting for is dropped, as are the answers left over when
    it has terminated. *)
Fixpoint wrun (host : string) (port : Z) (answers : list answer) (w : wstate)
  : wstate * list event :=
  match answers with
  | [] => (w, [])
  | a :: answers' =>
      match wstep host port a w with
      | None => wrun host port answers' w
      | Some (w', evs) =>
          let (w'', evs') := wrun host port answers' w' in
          (w'', evs ++ evs')
      end
  end.

(** [_insert_queries(queries, host, port)] against the answers of the
    database.  The result is [Finished] or [Died] when the call ended, and
    the state it is left waiting in when the answers ran out first. *)
Definition _insert_queries (queries : list string) (host : string) (port : Z)
    (answers : list answer) : wstate * list event :=
  wrun host port answers (Connecting queries).

(** The statements a trace attempted, in order. *)
Definition attempts (t : list event) : list string :=
  flat_map (fun e => match e with Execute q => [q] | _ => [] end) t.

(* ===================================================================== *)
(** ** The parallel loader: [nx_graph_to_memgraph_parallel] (lines 40-58) *)
(* ===================================================================== *)

(** The two rounds of the [for] loop of line 43. *)
Inductive phase : Type :=
| NodePhase
| EdgePhase.

(** The generator of a round.  Both generators are created at line 43, and
    neither runs before [list(queries_gen)] of its own round drives it. *)
Definition queries_gen `{LiteralEncoder} (ph : phase) (graph : Graph)
  : generated :=
  match ph with
  | NodePhase => _nx_nodes_to_cypher graph
  | EdgePhase => _nx_edges_to_cypher graph
  end.

(** *** Each worker against its own answers

    The workers share nothing, so what the parent sees of a round is what
    each worker does against the answers the database gives it. *)

(** The answers every worker of every round gets. *)
Definition environment : Type := phase -> nat -> list answer.

Inductive outcome : Type :=
| ReturnedNone                        (* the call returned *)
| RaisedExn (e : exn)                 (* the call raised *)
| Blocked (ph : phase) (i : nat).     (* [join] of process [i] does not return *)

(** What one round leaves: the outcome when the round ends the call, the
    graph, and every worker's final state and trace. *)
Record round : Type := {
  round_end : option outcome;
  round_graph : Graph;
  round_workers : list (wstate * list event)
}.

(** The processes of a round, each run on its chunk (lines 47-56). *)
Definition run_processes (host : string) (port : Z) (answers : nat -> list answer)
    (chunks : list (list string)) : list (wstate * list event) :=
  map (fun ic => _insert_queries (snd ic) host port (answers (fst ic)))
      (combine (seq 0 (length chunks)) chunks).

(** Lines 57-58: the first process that has not terminated blocks its
    [join]. *)
Fixpoint join_all (ph : phase) (i : nat) (ws : list (wstate * list event))
  : option outcome :=
  match ws with
  | [] => None
  | (w, _) :: ws' =>
      if terminated w then join_all ph (S i) ws' else Some (Blocked ph i)
  end.

(** One round of the loop of line 43 (lines 44-58). *)
Definition run_round `{LiteralEncoder} (num_of_processes : nat)
    (host : string) (port : Z) (env : environment) (ph : phase)
    (graph : Graph) : round :=
  let r := queries_gen ph graph in
  match list_of r with
  | inr e => {| round_end := Some (RaisedExn e); round_graph := graph_after r;
                round_workers := [] |}
  | inl queries =>
      match partition queries num_of_processes with
      | inr e => {| round_end := Some (RaisedExn e);
                    round_graph := graph_after r; round_workers := [] |}
      | inl chunks =>
          let ws := run_processes host port (env ph) chunks in
          {| round_end := join_all ph 0 ws; round_graph := graph_after r;
             round_workers := ws |}
      end
  end.

(** The call: the node round, then the edge round; with the outcome, the
    graph as the call leaves it and what the workers of each round that was
    entered did. *)
Definition nx_graph_to_memgraph_parallel `{LiteralEncoder} (cpu_count : nat)
    (env : environment) (graph : Graph) (host : string) (port : Z)
  : outcome * Graph * list (phase * list (wstate * list event)) :=
  let num_of_processes := cpu_count / 2 in
  let r1 := run_round num_of_processes host port env NodePhase graph in
  match round_end r1 with
  | Some o => (o, round_graph r1, [(NodePhase, round_workers r1)])
  | None =>
      let r2 := run_round num_of_processes host port env EdgePhase (round_graph r1) in
      (match round_end r2 with Some o => o | None => ReturnedNone end,
       round_graph r2,
       [(NodePhase, round_workers r1); (EdgePhase, round_workers r2)])
  end.

(** *** Parent and workers interleaved *)

(** A process object: created (line 50), or started (line 56) and
    running [_insert_queries]. *)
Inductive proc : Type :=
| Created (queries : list string)
| Started (w : wstate).

(** Where the parent stands. *)
Inductive control : Type :=
| AtList (ph : phase)                 (* line 44 of the round *)
| AtStart (ph : phase) (k : nat)      (* line 56, [k] processes started *)
| AtJoin (ph : phase) (k : nat)       (* line 58, [k] processes joined *)
| Returned
| Raised (e : exn).

(** The parent, the graph, the processes bound to [processes], and the
    round that created them. *)
Record sys : Type := {
  sys_pc : control;
  sys_graph : Graph;
  sys_processes : list proc;
  sys_owner : phase
}.

(** What an observer of the whole system sees. *)
Inductive gevent : Type :=
| Partitioned (ph : phase) (chunks : list (list string))
| ProcessStarted (ph : phase) (i : nat)
| ProcessJoined (ph : phase) (i : nat)
| Worker (ph : phase) (i : nat) (e : event).

Definition gevent_phase (e : gevent) : phase :=
  match e with
  | Partitioned ph _ | ProcessStarted ph _ | ProcessJoined ph _
  | Worker ph _ _ => ph
  end.

(** Who moves next: the parent, or process [i] on an answer of the
    database. *)
Inductive action : Type :=
| Parent
| Child (i : nat) (a : answer).

(** [l[i] = x], for [i] in range. *)
Fixpoint list_set {A : Type} (i : nat) (x : A) (l : list A) : list A :=
  match l, i with
  | [], _ => []
  | _ :: l', O => x :: l'
  | y :: l', S i' => y :: list_set i' x l'
  end.

Definition after_round (ph : phase) : control :=
  match ph with
  | NodePhase => AtList EdgePhase
  | EdgePhase => Returned
  end.

(** One step of the parent; [None] when it cannot move ([join] of a process
    that is still running, or the call has ended). *)
Definition parent_step `{LiteralEncoder} (num_of_processes : nat) (s : sys)
  : option (sys * list gevent) :=
  match sys_pc s with
  | AtList ph =>
      let r := queries_gen ph (sys_graph s) in
      match list_of r with
      | inr e =>
          Some ({| sys_pc := Raised e; sys_graph := graph_after r;
                   sys_processes := sys_processes s;
                   sys_owner := sys_owner s |}, [])
      | inl queries =>
          match partition queries num_of_processes with
          | inr e =>
              Some ({| sys_pc := Raised e; sys_graph := graph_after r;
                       sys_processes := sys_processes s;
                       sys_owner := sys_owner s |}, [])
          | inl chunks =>
              Some ({| sys_pc := AtStart ph 0; sys_graph := graph_after r;
                       sys_processes := map Created chunks;
                       sys_owner := ph |}, [Partitioned ph chunks])
          end
      end
  | AtStart ph k =>
      match nth_error (sys_processes s) k with
      | Some (Created queries) =>
          Some ({| sys_pc := AtStart ph (S k); sys_graph := sys_graph s;
                   sys_processes :=
                     list_set k (Started (Connecting queries)) (sys_processes s);
                   sys_owner := sys_owner s |}, [ProcessStarted ph k])
      | Some (Started _) => None
      | None =>
          Some ({| sys_pc := AtJoin ph 0; sys_graph := sys_graph s;
                   sys_processes := sys_processes s;
                   sys_owner := sys_owner s |}, [])
      end
  | AtJoin ph k =>
      match nth_error (sys_processes s) k with
      | Some (Started w) =>
          if terminated w
          then Some ({| sys_pc := AtJoin ph (S k); sys_graph := sys_graph s;
                        sys_processes := sys_processes s;
                        sys_owner := sys_owner s |}, [ProcessJoined ph k])
          else None
      | Some (Created _) => None
      | None =>
          Some ({| sys_pc := after_round ph; sys_graph := sys_graph s;
                   sys_processes := sys_processes s;
                   sys_owner := sys_owner s |}, [])
      end
  | Returned | Raised _ => None
  end.

(** One step of process [i]: only a started process moves. *)
Definition child_step (host : string) (port : Z) (i : nat) (a : answer)
    (s : sys) : option (sys * list gevent) :=
  match nth_error (sys_processes s) i with
  | Some (Started w) =>
      match wstep host port a w with
      | Some (w', evs) =>
          Some ({| sys_pc := sys_pc s; sys_graph := sys_graph s;
                   sys_processes := list_set i (Started w') (sys_processes s);
                   sys_owner := sys_owner s |},
                map (Worker (sys_owner s) i) evs)
      | None => None
      end
  | _ => None
  end.

Definition step `{LiteralEncoder} (cpu_count : nat) (host : string) (port : Z)
    (act : action) (s : sys) : option (sys * list gevent) :=
  match act with
  | Parent => parent_step (cpu_count / 2) s
  | Child i a => child_step host port i a s
  end.

(** A schedule run from a state; an action that cannot move is skipped. *)
Fixpoint run `{LiteralEncoder} (cpu_count : nat) (host : string) (port : Z)
    (acts : list action) (s : sys) : sys * list gevent :=
  match acts with
  | [] => (s, [])
  | act :: acts' =>
      match step cpu_count host port act s with
      | None => run cpu_count host port acts' s
      | Some (s', evs) =>
          let (s'', t) := run cpu_count host port acts' s' in
          (s'', evs ++ t)
      end
  end.

(** The call of [nx_graph_to_memgraph_parallel(graph, host, port)]. *)
Definition initial (graph : Graph) : sys :=
  {| sys_pc := AtList NodePhase; sys_graph := graph; sys_processes := [];
     sys_owner := NodePhase |}.

(* ===================================================================== *)
(** ** A concrete encoder and concrete graphs *)
(* ===================================================================== *)

Definition dquote : string := String (ascii_of_nat 34) EmptyString.

(** Modelled from the spec: [gqlalchemy.utilities] is not among the sources.
    Section 4.1 and the examples of section 8 fix the shapes used here: a
    label is rendered as a colon and its name, several labels one after
    the other in their order, no label as the empty fragment. *)
Definition spec_labels (labels : value) : string :=
  match labels with
  | VStr EmptyString => EmptyString
  | VStr s => (":" ++ s)%string
  | VList l =>
      fold_right
        (fun v acc => match v with
                      | VStr s => (":" ++ s ++ acc)%string
                      | _ => acc
                      end) EmptyString l
  | _ => EmptyString
  end.

(** Modelled from the spec: the literal of one value inside a property map.
    The examples of section 8 show a number as its decimal digits and a
    string between double quotes; the rendering of the other values is not
    fixed by the spec and is chosen here. *)
Fixpoint spec_value (v : value) : string :=
  match v with
  | VNone => "null"
  | VBool true => "true"
  | VBool false => "false"
  | VInt z => str_int z
  | VStr s => (dquote ++ s ++ dquote)%string
  | VList l =>
      ("[" ++ String.concat ", " (map spec_value l) ++ "]")%string
  end.

(** Modelled from the spec: [to_cypher_properties] of section 4.1: keys in
    the iteration order of the mapping, the empty mapping as the empty
    fragment. *)
Definition spec_properties (properties : dict) : string :=
  match properties with
  | [] => EmptyString
  | _ :: _ =>
      ("{" ++ String.concat ", "
                (map (fun kv => (fst kv ++ ": " ++ spec_value (snd kv))%string)
                     properties)
           ++ "}")%string
  end.

Definition spec_encoder : LiteralEncoder :=
  {| to_cypher_labels := spec_labels; to_cypher_properties := spec_properties |}.

(** A person who lives in a city. *)
Definition person_city : Graph :=
  {| nodes := [(0%Z, [("labels", VStr "Person"); ("name", VStr "Alice")]);
               (1%Z, [("labels", VStr "City")])];
     edges := [(0%Z, 1%Z, [("type", VStr "LIVES_IN")])] |}.

(** The same graph, the person with a logical [id] of its own. *)
Definition person_city_own_id : Graph :=
  {| nodes := [(0%Z, [("labels", VStr "Person"); ("id", VInt 7)]);
               (1%Z, [("labels", VStr "City")])];
     edges := [(0%Z, 1%Z, [("type", VStr "LIVES_IN")])] |}.

(** A graph whose edge has no [type]. *)
Definition plain_pair : Graph :=
  {| nodes := [(0%Z, [("labels", VStr "Person")]); (1%Z, [])];
     edges := [(0%Z, 1%Z, [("since", VInt 1999)])] |}.

(** Ten statements, as in the example of section 8. *)
Definition ten_statements : list string :=
  ["s0"; "s1"; "s2"; "s3"; "s4"; "s5"; "s6"; "s7"; "s8"; "s9"].

(** A schedule for two CPUs (one process a round) on [plain_pair]: the
    node round to its end, then the edge round to its end, every execution
    going through. *)
Definition one_process_schedule : list action :=
  [Parent; Parent; Parent;
   Child 0 Connected; Child 0 (Reply Executed); Child 0 (Reply Executed);
   Parent; Parent;
   Parent; Parent; Parent;
   Child 0 Connected; Child 0 (Reply Executed);
   Parent; Parent].

(** The sequential schedule of one round with [W] processes: the parent
    partitions, starts every process and comes to the joins; process after
    process gets its answers; the parent joins every process and leaves
    the round. *)
Definition round_schedule (W : nat) (answers : nat -> list answer)
  : list action :=
  Parent :: repeat Parent W ++ Parent ::
  flat_map (fun i => map (Child i) (answers i)) (seq 0 W) ++
  repeat Parent W ++ [Parent].

(** ** Where the interleaved system stands *)

(** Process [i] has been started and has terminated. *)
Definition exited (s : sys) (i : nat) : Prop :=
  exists w, nth_error (sys_processes s) i = Some (Started w) /\
            terminated w = true.

(** The parent has joined process [i] of the node round. *)
Definition joined (s : sys) (i : nat) : Prop :=
  exists k, sys_pc s = AtJoin NodePhase k /\ i < k.

(** Every process bound to [processes] has terminated. *)
Definition quiet (s : sys) : Prop :=
  Forall (fun p => exists w, p = Started w /\ terminated w = true)
         (sys_processes s).

(** The parent is in the node round, with [W] processes once it has
    partitioned, and the processes it has joined have terminated. *)
Definition node_side (W : nat) (s : sys) : Prop :=
  sys_owner s = NodePhase /\
  ((sys_pc s = AtList NodePhase /\ sys_processes s = []) \/
   (exists k, sys_pc s = AtStart NodePhase k /\ length (sys_processes s) = W) \/
   (exists k, sys_pc s = AtJoin NodePhase k /\ length (sys_processes s) = W /\
              forall i, i < k -> exited s i)).

(** The parent has left the node round: it is in the edge round with the
    processes of that round, or between the rounds (or stopped by an
    exception) with no process running. *)
Definition edge_side (s : sys) : Prop :=
  (sys_owner s = EdgePhase /\
   ((exists k, sys_pc s = AtStart EdgePhase k) \/
    (exists k, sys_pc s = AtJoin EdgePhase k) \/
    sys_pc s = Returned)) \/
  (quiet s /\ (sys_pc s = AtList EdgePhase \/ exists e, sys_pc s = Raised e)).

Definition in_phase (ph : phase) (e : gevent) : Prop := gevent_phase e = ph.

(** ** Observations on traces *)

Definition is_connect (e : event) : bool :=
  match e with
  | Connect _ _ => true
  | _ => false
  end.

(** The connections a trace opened. *)
Definition connections (t : list event) : nat := length (filter is_connect t).

(** ** Further observations *)

(** Every edge of a [networkx] graph joins two of its nodes. *)
Definition endpoints_are_nodes (g : Graph) : Prop :=
  Forall (fun e => In (fst (fst e)) (map fst (nodes g)) /\
                   In (snd (fst e)) (map fst (nodes g))) (edges g).

(** [graph.nodes[n].get("labels", default)] of lines 88-89, for a node [n]
    of the graph. *)
Definition endpoint_labels (ns : list (Z * dict)) (n : Z) : value :=
  match nodes_getitem n ns with
  | Some d => dict_get_default LABELS (VStr EmptyString) d
  | None => VStr EmptyString
  end.

(** The statements still in the list of a worker. *)
Definition queue_of (w : wstate) : list string :=
  match w with
  | Connecting queries | Looping queries => queries
  | Finished | Died => []
  end.

(** The statements whose execution was followed by the call of [commit],
    in the order of a trace. *)
Fixpoint followed_by_commit (t : list event) : list string :=
  match t with
  | [] => []
  | Execute q :: t' =>
      match t' with
      | Commit :: _ => q :: followed_by_commit t'
      | _ => followed_by_commit t'
      end
  | _ :: t' => followed_by_commit t'
  end.

Definition is_executed (r : response) : bool :=
  match r with
  | Executed => true
  | _ => false
  end.

(** The executions that went through among the replies. *)
Definition successes (rs : list response) : nat :=
  length (filter is_executed rs).

(** The database executes or reports an error of its own: no other
    exception, and [commit] goes through. *)
Definition executes_or_rejects (r : response) : Prop :=
  r = Executed \/ exists msg, r = DatabaseError msg.

(** The parent has joined process [i] of the edge round. *)
Definition joined_edge (s : sys) (i : nat) : Prop :=
  exists k, sys_pc s = AtJoin EdgePhase k /\ i < k.

(** The parent is in the edge round with its [W] processes, and the
    processes it has joined have terminated. *)
Definition edge_round (W : nat) (s : sys) : Prop :=
  sys_owner s = EdgePhase /\
  ((exists k, sys_pc s = AtStart EdgePhase k /\ length (sys_processes s) = W) \/
   (exists k, sys_pc s = AtJoin EdgePhase k /\ length (sys_processes s) = W /\
              forall i, i < k -> exited s i)).

(** ** The events of one process *)

Definition phase_eqb (p q : phase) : bool :=
  match p, q with
  | NodePhase, NodePhase | EdgePhase, EdgePhase => true
  | _, _ => false
  end.

(** What process [i] of round [ph] did, in the order of a trace. *)
Definition worker_events (ph : phase) (i : nat) (t : list gevent)
  : list event :=
  flat_map (fun e => match e with
                     | Worker ph' j ev =>
                         if phase_eqb ph ph' && Nat.eqb i j then [ev] else []
                     | _ => []
                     end) t.

(** Where process [i] stands: a process not yet started stands before its
    connection attempt. *)
Definition current (s : sys) (i : nat) : option wstate :=
  match nth_error (sys_processes s) i with
  | Some (Created queries) => Some (Connecting queries)
  | Some (Started w) => Some w
  | None => None
  end.

(** The connection is made, and the database executes or rejects. *)
Definition answers_well (a : answer) : Prop :=
  a = Connected \/ exists r, a = Reply r /\ executes_or_rejects r.

(** A schedule in which every process is answered so. *)
Definition well_answered (acts : list action) : Prop :=
  Forall (fun act => match act with
                     | Parent => True
                     | Child _ a => answers_well a
                     end) acts.

(** The replies among the answers. *)
Definition replies (answers : list answer) : list response :=
  flat_map (fun a => match a with Reply r => [r] | _ => [] end) answers.

(** A schedule for two CPUs on [person_city] in which the connection of
    the process of the node round fails and the edge round goes through. *)
Definition node_connection_fails_schedule : list action :=
  [Parent; Parent; Parent;
   Child 0 ConnectFailed;
   Parent; Parent;
   Parent; Parent; Parent;
   Child 0 Connected; Child 0 (Reply Executed);
   Parent; Parent].

(** Two nodes and three edges between them, two of them loops. *)
Definition pair_with_loops : Graph :=
  {| nodes := [(0%Z, []); (1%Z, [])];
     edges := [(0%Z, 0%Z, []); (0%Z, 1%Z, []); (1%Z, 1%Z, [])] |}.

(** Every connection is made; the database rejects every edge statement,
    [n] times over. *)
Definition rejecting_edges (n : nat) : environment :=
  fun ph _ =>
    match ph with
    | NodePhase => [Connected]
    | EdgePhase => Connected :: repeat (Reply (DatabaseError "conflict")) n
    end.

(* ===================================================================== *)
(** * Properties *)
(* ===================================================================== *)

(** ** Attribute mappings *)

Lemma dict_contains_get (k : string) (d : dict) :
  dict_contains k d = match dict_get k d with Some _ => true | None => false end.
Proof.
  induction d as [|[k' v] d IH]; simpl; [reflexivity|].
  destruct (String.eqb k' k); simpl; auto.
Qed.

Lemma dict_get_set_eq (k : string) (v : value) (d : dict) :
  dict_get k (dict_set k v d) = Some v.
Proof.
  induction d as [|[k' v'] d IH]; simpl.
  - now rewrite String.eqb_refl.
  - destruct (String.eqb k' k) eqn:E; simpl.
    + now rewrite String.eqb_refl.
    + now rewrite E.
Qed.

Lemma dict_get_set_ne (k k' : string) (v : value) (d : dict) :
  k <> k' -> dict_get k' (dict_set k v d) = dict_get k' d.
Proof.
  intros Hne. induction d as [|[k0 v0] d IH]; simpl.
  - destruct (String.eqb_spec k k'); [contradiction | reflexivity].
  - destruct (String.eqb_spec k0 k) as [->|Hk]; simpl.
    + destruct (String.eqb_spec k k'); [contradiction | reflexivity].
    + now rewrite IH.
Qed.

Lemma dict_set_absent (k : string) (v : value) (d : dict) :
  dict_get k d = None -> dict_set k v d = d ++ [(k, v)].
Proof.
  induction d as [|[k0 v0] d IH]; simpl; [reflexivity|].
  destruct (String.eqb k0 k); [discriminate|].
  intros Hd. now rewrite IH.
Qed.

Lemma dict_get_without (k key : string) (d : dict) :
  dict_get k (dict_without key d) =
  if String.eqb k key then None else dict_get k d.
Proof.
  induction d as [|[k0 v0] d IH]; simpl.
  - now destruct (String.eqb k key).
  - destruct (String.eqb_spec k0 key) as [->|Hk0]; simpl.
    + rewrite IH. destruct (String.eqb_spec k key) as [->|Hk].
      * reflexivity.
      * destruct (String.eqb_spec key k); [congruence | reflexivity].
    + rewrite IH. destruct (String.eqb_spec k0 k) as [->|Hk].
      * destruct (String.eqb_spec k key); [contradiction | reflexivity].
      * reflexivity.
Qed.


Lemma dict_pop_absent (k : string) (d : dict) :
  dict_get k d = None -> dict_pop k d = d.
Proof.
  induction d as [|[k0 v0] d IH]; simpl; [reflexivity|].
  destruct (String.eqb k0 k); simpl; [discriminate|].
  intros Hd. now rewrite IH.
Qed.


(** ** The [id] default *)

Lemma with_default_id_get_id (nx_id : Z) (d : dict) :
  dict_get ID (with_default_id nx_id d) =
  Some (match dict_get ID d with Some v => v | None => VInt nx_id end).
Proof.
  unfold with_default_id. rewrite dict_contains_get. fold ID.
  destruct (dict_get ID d) eqn:E.
  - exact E.
  - apply dict_get_set_eq.
Qed.

Lemma with_default_id_get_other (nx_id : Z) (k : string) (d : dict) :
  k <> ID -> dict_get k (with_default_id nx_id d) = dict_get k d.
Proof.
  intros Hk. unfold with_default_id.
  destruct (dict_contains "id" d); [reflexivity|].
  apply dict_get_set_ne. intros Heq. apply Hk. now rewrite <- Heq.
Qed.

Lemma with_default_id_idem (nx_id : Z) (d : dict) :
  with_default_id nx_id (with_default_id nx_id d) = with_default_id nx_id d.
Proof.
  unfold with_default_id at 1.
  rewrite dict_contains_get. fold ID.
  now rewrite with_default_id_get_id.
Qed.

Lemma with_default_id_cases (nx_id : Z) (d : dict) :
  (dict_get ID d <> None -> with_default_id nx_id d = d) /\
  (dict_get ID d = None -> with_default_id nx_id d = d ++ [(ID, VInt nx_id)]).
Proof.
  unfold with_default_id. rewrite dict_contains_get. fold ID.
  destruct (dict_get ID d) eqn:E; split; intros Hd; try congruence.
  now apply dict_set_absent.
Qed.

(** ** The generators as maps over the entries *)

Section Generators.
Context `{enc : LiteralEncoder}.

Lemma _create_node_eq (nx_id : Z) (properties : dict) :
    _create_node nx_id properties =
    (node_statement
       (to_cypher_labels (dict_get_default LABELS (VStr EmptyString) properties))
       (to_cypher_properties (node_properties nx_id properties)),
     with_default_id nx_id properties).
  Proof.
    unfold _create_node, node_properties, dict_get_default.
    rewrite with_default_id_get_other; [reflexivity|].
    unfold LABELS, ID. discriminate.
  Qed.

Lemma _create_node_again (nx_id : Z) (properties : dict) :
    _create_node nx_id (with_default_id nx_id properties) =
    _create_node nx_id properties.
  Proof.
    unfold _create_node. now rewrite with_default_id_idem.
  Qed.

Lemma nodes_loop_eq (ns : list (Z * dict)) :
    nodes_loop ns =
    (map (fun nd => fst (_create_node (fst nd) (snd nd))) ns,
     map (fun nd => (fst nd, with_default_id (fst nd) (snd nd))) ns).
  Proof.
    induction ns as [|[nx_id data] ns IH]; simpl; [reflexivity|].
    now rewrite IH.
  Qed.

Lemma _nx_nodes_to_cypher_eq (g : Graph) :
    _nx_nodes_to_cypher g =
    {| yielded := map (fun nd => fst (_create_node (fst nd) (snd nd))) (nodes g);
       raised := None;
       graph_after :=
         {| nodes := map (fun nd => (fst nd, with_default_id (fst nd) (snd nd)))
                         (nodes g);
            edges := edges g |} |}.
  Proof.
    unfold _nx_nodes_to_cypher. now rewrite nodes_loop_eq.
  Qed.

Lemma nodes_loop_again (ns : list (Z * dict)) :
    nodes_loop (snd (nodes_loop ns)) = nodes_loop ns.
  Proof.
    rewrite !nodes_loop_eq. cbn [fst snd]. rewrite !map_map. f_equal.
    - apply map_ext. intros [nx_id data]. cbn [fst snd].
      now rewrite _create_node_again.
    - apply map_ext. intros [nx_id data]. cbn [fst snd].
      now rewrite with_default_id_idem.
  Qed.

Lemma edges_loop_no_type (ns : list (Z * dict)) (es : list (Z * Z * dict)) :
    Forall (fun e => dict_get TYPE (snd e) = None) es ->
    snd (edges_loop ns es) = es.
  Proof.
    induction 1 as [|[[n1 n2] data] es Hd Hes IH]; simpl; [reflexivity|].
    destruct (nodes_getitem n1 ns); [|reflexivity].
    destruct (nodes_getitem n2 ns); [|reflexivity].
    destruct (edges_loop ns es) as [[stmts e] es'']. simpl in *.
    rewrite dict_pop_absent by exact Hd. now rewrite IH.
  Qed.

Lemma _nx_edges_to_cypher_eq (g : Graph) :
  _nx_edges_to_cypher g =
  {| yielded := fst (fst (edges_loop (nodes g) (edges g)));
     raised := snd (fst (edges_loop (nodes g) (edges g)));
     graph_after :=
       {| nodes := nodes g; edges := snd (edges_loop (nodes g) (edges g)) |} |}.
Proof.
  unfold _nx_edges_to_cypher.
  now destruct (edges_loop (nodes g) (edges g)) as [[stmts e] es].
Qed.

Lemma nx_to_cypher_eq (g : Graph) :
  let ns' := map (fun nd => (fst nd, with_default_id (fst nd) (snd nd))) (nodes g) in
  nx_to_cypher g =
  {| yielded := map (fun nd => fst (_create_node (fst nd) (snd nd))) (nodes g)
                ++ fst (fst (edges_loop ns' (edges g)));
     raised := snd (fst (edges_loop ns' (edges g)));
     graph_after :=
       {| nodes := ns'; edges := snd (edges_loop ns' (edges g)) |} |}.
Proof.
  cbv zeta. unfold nx_to_cypher. rewrite _nx_nodes_to_cypher_eq.
  cbn [raised yielded graph_after]. now rewrite _nx_edges_to_cypher_eq.
Qed.

End Generators.

Section Statements.
Context `{enc : LiteralEncoder}.


  (** C5.  Node-statement generation yields one creation statement for
      every node of the graph, in the iteration order of the nodes.  The
      statement is the text [CREATE (] labels, a space, properties [);]
      of line 101, and the property mapping it encodes has an [id] entry:
      the node's own [id] attribute when it has one, the node's graph
      identifier otherwise. *)
Theorem node_statements_one_per_node (g : Graph) :
    raised (_nx_nodes_to_cypher g) = None /\
    length (yielded (_nx_nodes_to_cypher g)) = length (nodes g) /\
    Forall2
      (fun nd stmt =>
         stmt =
           ("CREATE ("
              ++ to_cypher_labels
                   (dict_get_default LABELS (VStr EmptyString) (snd nd))
              ++ " "
              ++ to_cypher_properties (node_properties (fst nd) (snd nd))
              ++ ");")%string /\
         dict_get ID (node_properties (fst nd) (snd nd)) =
           Some (match dict_get ID (snd nd) with
                 | Some v => v
                 | None => VInt (fst nd)
                 end))
      (nodes g) (yielded (_nx_nodes_to_cypher g)).
  Proof.
    rewrite _nx_nodes_to_cypher_eq. cbn [yielded raised].
    split; [reflexivity|]. split; [apply length_map|].
    induction (nodes g) as [|[nx_id data] ns IH]; cbn [map]; constructor.
    - cbn [fst snd]. rewrite _create_node_eq. cbn [fst]. split; [reflexivity|].
      unfold node_properties. rewrite dict_get_without.
      replace (String.eqb ID LABELS) with false by reflexivity.
      apply with_default_id_get_id.
    - exact IH.
  Qed.


End Statements.

(** ** Generating twice *)

(** The claim that a generation pass leaves the mappings of the graph as
    they were fails on the [id] default: the nodes of [plain_pair] have no
    [id] before the pass and have one after it. *)
Lemma generation_writes_id_into_graph :
  nodes (graph_after (@nx_to_cypher spec_encoder plain_pair)) =
    [(0%Z, [("labels", VStr "Person"); ("id", VInt 0)]);
     (1%Z, [("id", VInt 1)])] /\
  graph_after (@nx_to_cypher spec_encoder plain_pair) <> plain_pair.
Proof.
  split; [reflexivity|]. intros Heq.
  apply (f_equal nodes) in Heq. vm_compute in Heq. discriminate Heq.
Qed.

(** C4, amended.  Node statements are the same on a second pass, on every
    graph.  A pass changes the node mappings by the [id] default only: a
    node keeps its identifier, a mapping with an [id] stays as it is, and a
    mapping without one gets the node's identifier as [id], after its other
    entries.  On a graph none of whose edges has a [type], two passes in
    succession yield the same statements, end the same way, and the first
    pass leaves the edge mappings as they were and the second pass changes
    nothing any more. *)
Theorem regeneration_of_statements `{enc : LiteralEncoder} (g : Graph) :
  let r1 := nx_to_cypher g in
  let r2 := nx_to_cypher (graph_after r1) in
  yielded (_nx_nodes_to_cypher (graph_after r1)) =
    yielded (_nx_nodes_to_cypher g) /\
  Forall2
    (fun nd nd' =>
       fst nd' = fst nd /\
       (dict_get ID (snd nd) <> None -> snd nd' = snd nd) /\
       (dict_get ID (snd nd) = None ->
        snd nd' = snd nd ++ [(ID, VInt (fst nd))]))
    (nodes g) (nodes (graph_after r1)) /\
  (Forall (fun e => dict_get TYPE (snd e) = None) (edges g) ->
   yielded r2 = yielded r1 /\ raised r2 = raised r1 /\
   graph_after r2 = graph_after r1 /\
   edges (graph_after r1) = edges g).
Proof.
  cbv zeta. rewrite (nx_to_cypher_eq g). cbn [yielded raised graph_after].
  set (ns' := map (fun nd => (fst nd, with_default_id (fst nd) (snd nd))) (nodes g)).
  assert (Hnodes : map (fun nd => fst (_create_node (fst nd) (snd nd))) ns' =
                   map (fun nd => fst (_create_node (fst nd) (snd nd))) (nodes g)).
  { unfold ns'. rewrite map_map. apply map_ext. intros [nx_id data].
    cbn [fst snd]. now rewrite _create_node_again. }
  assert (Hidem : map (fun nd => (fst nd, with_default_id (fst nd) (snd nd))) ns' = ns').
  { unfold ns'. rewrite map_map. apply map_ext. intros [nx_id data].
    cbn [fst snd]. now rewrite with_default_id_idem. }
  split; [|split].
  - rewrite _nx_nodes_to_cypher_eq. cbn [yielded nodes].
    rewrite _nx_nodes_to_cypher_eq. cbn [yielded]. exact Hnodes.
  - cbn [nodes]. unfold ns'. clear. induction (nodes g) as [|[nx_id data] ns IH];
      cbn [map]; constructor; [|exact IH].
    cbn [fst snd]. split; [reflexivity|]. apply with_default_id_cases.
  - intros Hno.
    pose proof (edges_loop_no_type ns' (edges g) Hno) as Hes.
    rewrite nx_to_cypher_eq. cbn [yielded raised graph_after nodes edges].
    rewrite Hnodes, Hidem, Hes, Hes. repeat split; reflexivity.
Qed.

Lemma regeneration_of_statements_witness :
  yielded (@nx_to_cypher spec_encoder
             (graph_after (@nx_to_cypher spec_encoder plain_pair))) =
  yielded (@nx_to_cypher spec_encoder plain_pair).
Proof.
  destruct (@regeneration_of_statements spec_encoder plain_pair) as (_ & _ & H).
  apply H. repeat constructor.
Defined.

(** What the amended statement leaves out: an edge with a [type] loses it
    in the first pass, and the second pass relates its endpoints by
    [TO]. *)
Example second_pass_after_type_is_popped :
  yielded (@_nx_edges_to_cypher spec_encoder person_city_own_id) =
    ["MATCH (n:Person {id: 0}), (m:City {id: 1}) CREATE (n)-[:LIVES_IN ]->(m);"] /\
  yielded (@_nx_edges_to_cypher spec_encoder
             (graph_after (@_nx_edges_to_cypher spec_encoder person_city_own_id))) =
    ["MATCH (n:Person {id: 0}), (m:City {id: 1}) CREATE (n)-[:TO ]->(m);"].
Proof. split; reflexivity. Qed.

(** ** Edge statements and the logical [id] *)

(** C6, at a node with an [id] of its own.  The node statement of node 0
    of [person_city_own_id] creates it with [id] 7, its own attribute; the
    edge statement matches its source by [id] 0, the graph identifier.
    The labels are those stored on the endpoints and the relationship type
    is the edge's [type], whatever the encoder. *)
Theorem edge_match_uses_graph_identifier :
  (forall enc : LiteralEncoder,
     yielded (@nx_to_cypher enc person_city_own_id) =
       [node_statement (to_cypher_labels (VStr "Person"))
          (to_cypher_properties [("id", VInt 7)]);
        node_statement (to_cypher_labels (VStr "City"))
          (to_cypher_properties [("id", VInt 1)]);
        edge_statement (to_cypher_labels (VStr "Person")) 0
          (to_cypher_labels (VStr "City")) 1
          (to_cypher_labels (VStr "LIVES_IN")) (to_cypher_properties [])]) /\
  yielded (@nx_to_cypher spec_encoder person_city_own_id) =
    ["CREATE (:Person {id: 7});";
     "CREATE (:City {id: 1});";
     "MATCH (n:Person {id: 0}), (m:City {id: 1}) CREATE (n)-[:LIVES_IN ]->(m);"].
Proof. split; [intros enc|]; reflexivity. Qed.

(* ===================================================================== *)
(** ** One worker *)
(* ===================================================================== *)

Lemma pop_snoc (rest : list string) (query : string) :
  pop (rest ++ [query]) = Some (query, rest).
Proof.
  unfold pop. rewrite rev_app_distr. cbn [rev app]. now rewrite rev_involutive.
Qed.

Lemma loop_test_snoc (rest : list string) (query : string) :
  loop_test (rest ++ [query]) = (Looping (rest ++ [query]), []).
Proof. destruct rest; reflexivity. Qed.

Lemma attempts_app (t1 t2 : list event) :
  attempts (t1 ++ t2) = attempts t1 ++ attempts t2.
Proof. apply flat_map_app. Qed.

Lemma loop_body_snoc (r : response) (rest : list string) (query : string) :
  loop_body r (rest ++ [query]) =
  match r with
  | Executed => (fst (loop_test rest), Execute query :: Commit :: snd (loop_test rest))
  | DatabaseError msg =>
      (Looping (rest ++ [query]), [Execute query; Warning (warning_text msg)])
  | IndexError => (Finished, [Execute query; Exit])
  | OtherError => (Died, [Execute query; Exit])
  | CommitError => (Died, [Execute query; Commit; Exit])
  end.
Proof.
  unfold loop_body. rewrite pop_snoc. destruct r; try reflexivity.
  - now destruct (loop_test rest).
  - now rewrite loop_test_snoc.
Qed.

(** The failed statement goes back to the tail, and the worker takes its
    next statement from the tail: on the chunk [a, b], a database error on
    [b] is followed by [b] again, not by [a]. *)
Lemma failed_statement_is_next_again :
  loop_body (DatabaseError "conflict") ["a"; "b"] =
    (Looping ["a"; "b"],
     [Execute "b"; Warning "Ignoring database error: conflict"]) /\
  next_query (Looping ["a"; "b"]) = Some "b" /\
  next_query (fst (loop_body (DatabaseError "conflict") ["a"; "b"])) <> Some "a" /\
  attempts (snd (_insert_queries ["a"; "b"] "127.0.0.1" 7687
                   [Connected; Reply (DatabaseError "conflict");
                    Reply Executed; Reply Executed])) = ["b"; "b"; "a"].
Proof. repeat split; try reflexivity. discriminate. Qed.

(** C1, amended.  When the execution of a statement fails with a
    database error, the statement is put back at the tail of the worker's
    remaining list, a warning with the error is logged, the worker neither
    terminates nor dies, and no commit is issued.  The worker takes its
    statements from the tail, so the statement it attempts next is the
    failed one again; as long as the database keeps failing it, the worker
    attempts that statement and nothing else. *)
Theorem database_error_requeues_and_retries (host : string) (port : Z)
    (rest : list string) (query msg : string) :
  pop (rest ++ [query]) = Some (query, rest) /\
  wstep host port (Reply (DatabaseError msg)) (Looping (rest ++ [query])) =
    Some (Looping (rest ++ [query]),
          [Execute query; Warning (warning_text msg)]) /\
  next_query (Looping (rest ++ [query])) = Some query /\
  forall msgs : list string,
    wrun host port (map (fun m => Reply (DatabaseError m)) msgs)
         (Looping (rest ++ [query])) =
    (Looping (rest ++ [query]),
     flat_map (fun m => [Execute query; Warning (warning_text m)]) msgs).
Proof.
  split; [apply pop_snoc|]. split.
  { cbn [wstep]. now rewrite loop_body_snoc. }
  split.
  { cbn [next_query]. now rewrite pop_snoc. }
  induction msgs as [|m msgs IH]; [reflexivity|].
  cbn [map wrun wstep]. rewrite loop_body_snoc, IH. reflexivity.
Qed.

Lemma loop_test_cases (queries : list string) :
  loop_test queries = (Finished, [Exit]) \/
  loop_test queries = (Looping queries, []).
Proof. destruct queries; auto. Qed.

Lemma pop_cases (queries : list string) :
  queries = [] \/ exists rest query, queries = rest ++ [query].
Proof.
  destruct queries as [|q qs] using rev_ind; [now left | right; eauto].
Qed.

(** A pass of the loop opens no connection and leaves the worker
    connected. *)
Lemma loop_body_no_connect (r : response) (queries : list string) :
  (forall qs, fst (loop_body r queries) <> Connecting qs) /\
  filter is_connect (snd (loop_body r queries)) = [].
Proof.
  destruct (pop_cases queries) as [->|(rest & query & ->)].
  - split; [discriminate | reflexivity].
  - rewrite loop_body_snoc. destruct r; cbn [fst snd];
      try (split; [discriminate | reflexivity]).
    destruct (loop_test_cases rest) as [-> | ->];
      split; try discriminate; reflexivity.
Qed.

Lemma wrun_terminated (host : string) (port : Z) (answers : list answer)
    (w : wstate) :
  terminated w = true -> wrun host port answers w = (w, []).
Proof.
  intros Hw. induction answers as [|a answers IH]; [reflexivity|].
  cbn [wrun]. destruct w; try discriminate Hw; exact IH.
Qed.

Lemma wrun_no_connect (host : string) (port : Z) (answers : list answer)
    (w : wstate) :
  (forall qs, w <> Connecting qs) ->
  filter is_connect (snd (wrun host port answers w)) = [].
Proof.
  revert w. induction answers as [|a answers IH]; intros w Hw; [reflexivity|].
  cbn [wrun].
  destruct (wstep host port a w) as [[w' evs]|] eqn:Hs; [|now apply IH].
  destruct w as [qs|qs| |]; try discriminate Hs; [now contradiction (Hw qs)|].
  destruct a as [| |r]; try discriminate Hs. cbn [wstep] in Hs.
  injection Hs as Hb.
  destruct (loop_body_no_connect r qs) as [Hst Hev].
  rewrite Hb in Hst, Hev. cbn [fst snd] in Hst, Hev.
  specialize (IH w' Hst).
  destruct (wrun host port answers w') as [w'' evs']. cbn [snd] in *.
  now rewrite filter_app, Hev, IH.
Qed.

Lemma wrun_all_executed (host : string) (port : Z) (queries : list string) :
  exists t,
    wrun host port (repeat (Reply Executed) (length queries))
         (fst (loop_test queries)) = (Finished, t) /\
    snd (loop_test queries) ++ t =
      flat_map (fun q => [Execute q; Commit]) (rev queries) ++ [Exit].
Proof.
  induction queries as [|query rest IH] using rev_ind.
  - exists []. split; reflexivity.
  - destruct IH as (t & Hrun & Ht).
    rewrite loop_test_snoc, length_app, Nat.add_1_r. cbn [fst snd repeat wrun wstep].
    rewrite loop_body_snoc, Hrun.
    eexists. split; [reflexivity|].
    rewrite rev_app_distr. cbn [rev app flat_map]. now rewrite <- Ht.
Qed.

Lemma wrun_step_eq (host : string) (port : Z) (a : answer)
    (answers : list answer) (w w' : wstate) (evs : list event) :
  wstep host port a w = Some (w', evs) ->
  wrun host port (a :: answers) w =
  (fst (wrun host port answers w'), evs ++ snd (wrun host port answers w')).
Proof.
  intros Hs. cbn [wrun]. rewrite Hs.
  now destruct (wrun host port answers w').
Qed.

(** Whatever the database answers, a worker at the loop with [query] at
    the tail attempts [query] first. *)
Lemma wrun_first_attempt (host : string) (port : Z) (answers : list answer)
    (rest : list string) (query : string) :
  hd_error (attempts (snd (wrun host port answers (Looping (rest ++ [query])))))
    = None \/
  hd_error (attempts (snd (wrun host port answers (Looping (rest ++ [query])))))
    = Some query.
Proof.
  induction answers as [|a answers IH]; [now left|].
  destruct a as [| |r]; [exact IH | exact IH |]. right.
  rewrite (wrun_step_eq host port (Reply r) answers _
             (fst (loop_body r (rest ++ [query])))
             (snd (loop_body r (rest ++ [query]))))
    by (cbn [wstep]; now destruct (loop_body r (rest ++ [query]))).
  cbn [snd]. rewrite attempts_app, loop_body_snoc. now destruct r.
Qed.

(** The worker starts at the tail of its chunk: on the chunk [a, b] the
    first statement attempted is [b].  And an execution that fails is
    followed by no commit. *)
Lemma last_statement_is_attempted_first :
  _insert_queries ["a"; "b"] "127.0.0.1" 7687
                  [Connected; Reply Executed; Reply Executed] =
    (Finished,
     [Connect "127.0.0.1" 7687; Execute "b"; Commit; Execute "a"; Commit; Exit]) /\
  hd_error (attempts (snd (_insert_queries ["a"; "b"] "127.0.0.1" 7687
                             [Connected; Reply Executed; Reply Executed]))) <>
    hd_error ["a"; "b"] /\
  _insert_queries ["a"] "127.0.0.1" 7687
                  [Connected; Reply (DatabaseError "conflict")] =
    (Looping ["a"],
     [Connect "127.0.0.1" 7687; Execute "a";
      Warning "Ignoring database error: conflict"]).
Proof. repeat split; try reflexivity. discriminate. Qed.

(** C8, amended.  The worker attempts its statements from the tail of the
    assigned list: whatever the database answers, the first statement
    attempted is the last of the chunk, and when every execution goes
    through the statements are executed in the reverse of the order of the
    list, each followed by a commit, and the worker returns.  It opens at
    most one connection.  A commit is issued after an execution that went
    through and after no other. *)
Theorem worker_executes_chunk_from_the_tail (host : string) (port : Z)
    (queries : list string) :
  _insert_queries queries host port
      (Connected :: repeat (Reply Executed) (length queries)) =
    (Finished,
     Connect host port
       :: flat_map (fun q => [Execute q; Commit]) (rev queries) ++ [Exit]) /\
  (forall answers : list answer,
     let t := snd (_insert_queries queries host port answers) in
     (hd_error (attempts t) = None \/
      hd_error (attempts t) = hd_error (rev queries)) /\
     connections t <= 1) /\
  (forall (r : response) (rest : list string) (query : string),
     In Commit (snd (loop_body r (rest ++ [query]))) <->
     r = Executed \/ r = CommitError).
Proof.
  split; [|split].
  - unfold _insert_queries. cbn [wrun wstep].
    destruct (wrun_all_executed host port queries) as (t & Hrun & Ht).
    destruct (loop_test queries) as [w evs]. cbn [fst snd] in *.
    rewrite Hrun. cbn [app]. now rewrite <- Ht.
  - intros answers. cbv zeta. unfold _insert_queries, connections.
    induction answers as [|a answers IH]; [cbn; auto|].
    destruct a as [| |r]; [| | exact IH].
    + rewrite (wrun_step_eq host port Connected answers (Connecting queries)
                 (fst (loop_test queries))
                 (Connect host port :: snd (loop_test queries)))
        by (cbn [wstep]; now destruct (loop_test queries)).
      cbn [snd app filter is_connect length attempts flat_map].
      fold (attempts (snd (loop_test queries)
                        ++ snd (wrun host port answers (fst (loop_test queries))))).
      rewrite filter_app, length_app, attempts_app.
      destruct (loop_test_cases queries) as [Hlt|Hlt]; rewrite Hlt; cbn [fst snd].
      * rewrite wrun_terminated by reflexivity. cbn. auto.
      * rewrite wrun_no_connect by discriminate. cbn [app filter length].
        split; [|lia].
        destruct (pop_cases queries) as [->|(rest & query & ->)];
          [discriminate Hlt|].
        rewrite rev_app_distr. cbn [rev app hd_error].
        apply wrun_first_attempt.
    + cbn [wrun wstep]. rewrite wrun_terminated by reflexivity. cbn. auto.
  - intros r rest query. rewrite loop_body_snoc.
    destruct r; cbn [snd In]; split; intros Hc; auto;
      repeat match goal with
             | H : _ \/ _ |- _ => destruct H
             | H : False |- _ => contradiction
             | H : _ = _ |- _ => discriminate H
             end.
Qed.

(* ===================================================================== *)
(** ** Partitioning *)
(* ===================================================================== *)

Lemma firstn_plus {A : Type} (a b : nat) (l : list A) :
  firstn (a + b) l = firstn a l ++ firstn b (skipn a l).
Proof.
  revert l. induction a as [|a IH]; intros l; [reflexivity|].
  destruct l as [|x l]; cbn [Nat.add firstn skipn app].
  - now rewrite firstn_nil.
  - now rewrite IH.
Qed.

Lemma slice_length {A : Type} (lo hi : nat) (l : list A) :
  lo <= hi -> hi <= length l -> length (slice lo hi l) = hi - lo.
Proof.
  intros Hlo Hhi. unfold slice. rewrite length_firstn, length_skipn. lia.
Qed.

Lemma slice_nth_error {A : Type} (lo hi : nat) (l : list A) (j : nat) :
  nth_error (slice lo hi l) j =
  if Nat.ltb j (hi - lo) then nth_error l (lo + j) else None.
Proof.
  unfold slice. rewrite nth_error_firstn, nth_error_skipn. reflexivity.
Qed.

Lemma process_queries_length (queries : list string) (n chunk_size : nat) :
  length (process_queries queries n chunk_size) = n.
Proof. unfold process_queries. now rewrite length_map, length_seq. Qed.

Lemma process_queries_nth (queries : list string) (n chunk_size i : nat) :
  i < n ->
  nth_error (process_queries queries n chunk_size) i =
  Some (slice (i * chunk_size) (chunk_size * (i + 1)) queries).
Proof.
  intros Hi. unfold process_queries.
  rewrite nth_error_map, nth_error_seq.
  apply Nat.ltb_lt in Hi. now rewrite Hi.
Qed.

Lemma process_queries_concat (queries : list string) (n chunk_size : nat) :
  concat (process_queries queries n chunk_size) =
  firstn (chunk_size * n) queries.
Proof.
  unfold process_queries. induction n as [|n IH].
  - now rewrite Nat.mul_0_r.
  - rewrite seq_S, map_app, concat_app, IH. cbn [map concat Nat.add].
    rewrite app_nil_r. unfold slice.
    replace (chunk_size * (n + 1) - n * chunk_size) with chunk_size by lia.
    replace (chunk_size * S n) with (chunk_size * n + chunk_size) by lia.
    rewrite firstn_plus. do 3 f_equal. lia.
Qed.

Lemma total_length_concat {A : Type} (ls : list (list A)) :
  total_length ls = length (concat ls).
Proof. unfold total_length. now rewrite length_concat. Qed.

(** C2.  For a statement list of length [L] and [W >= 1] workers the
    partitioner computes [chunk_size = L // W]; worker [i] gets the
    contiguous slice from [i * chunk_size] up to [(i + 1) * chunk_size]
    (its [j]-th statement is statement [i * chunk_size + j] of the list);
    the chunk lengths sum to [(L // W) * W], which is less than [L] when
    [L % W <> 0]; and the chunks together are the first [chunk_size * W]
    statements, so the remainder is in no chunk. *)
Theorem partition_drops_remainder (queries : list string) (W : nat) :
  1 <= W ->
  let L := length queries in
  let chunk_size := L / W in
  let chunks := process_queries queries W chunk_size in
  floordiv L W = inl chunk_size /\
  partition queries W = inl chunks /\
  length chunks = W /\
  (forall i, i < W ->
     nth_error chunks i =
       Some (slice (i * chunk_size) ((i + 1) * chunk_size) queries) /\
     length (slice (i * chunk_size) ((i + 1) * chunk_size) queries) = chunk_size /\
     forall j,
       nth_error (slice (i * chunk_size) ((i + 1) * chunk_size) queries) j =
       if Nat.ltb j chunk_size then nth_error queries (i * chunk_size + j) else None) /\
  total_length chunks = (L / W) * W /\
  (L mod W <> 0 -> total_length chunks < L) /\
  concat chunks = firstn (chunk_size * W) queries.
Proof.
  intros HW L chunk_size chunks.
  assert (Hfd : floordiv L W = inl chunk_size).
  { unfold floordiv. destruct W; [lia | reflexivity]. }
  assert (Hle : chunk_size * W <= L).
  { unfold chunk_size. rewrite Nat.mul_comm. apply Nat.Div0.mul_div_le. }
  assert (Htot : total_length chunks = chunk_size * W).
  { unfold chunks. rewrite total_length_concat, process_queries_concat.
    rewrite length_firstn. fold L. lia. }
  split; [exact Hfd|]. split.
  { unfold partition. fold L. now rewrite Hfd. }
  split; [apply process_queries_length|]. split.
  { intros i Hi.
    assert (Hhi : (i + 1) * chunk_size <= L) by nia.
    split; [|split].
    - unfold chunks. rewrite process_queries_nth by exact Hi.
      now rewrite (Nat.mul_comm chunk_size (i + 1)).
    - rewrite slice_length; fold L; lia.
    - intros j. rewrite slice_nth_error.
      now replace ((i + 1) * chunk_size - i * chunk_size) with chunk_size by lia. }
  split; [exact Htot|]. split.
  { intros Hmod. rewrite Htot.
    pose proof (Nat.div_mod_eq L W) as Hdm. fold chunk_size in Hdm. lia. }
  apply process_queries_concat.
Qed.

Lemma partition_drops_remainder_witness :
  partition ten_statements 3 =
    inl [["s0"; "s1"; "s2"]; ["s3"; "s4"; "s5"]; ["s6"; "s7"; "s8"]] /\
  total_length (process_queries ten_statements 3 3) < 10.
Proof.
  destruct (partition_drops_remainder ten_statements 3 ltac:(lia))
    as (_ & Hp & _ & _ & _ & Hlt & _).
  split; [exact Hp|]. apply Hlt. discriminate.
Defined.

(* ===================================================================== *)
(** ** The parallel loader, worker by worker *)
(* ===================================================================== *)

(** A worker with nothing to do connects and is done. *)
Lemma _insert_queries_empty (host : string) (port : Z) (answers : list answer) :
  (exists rest, answers = Connected :: rest \/ answers = ConnectFailed :: rest) ->
  terminated (fst (_insert_queries [] host port answers)) = true /\
  attempts (snd (_insert_queries [] host port answers)) = [].
Proof.
  intros (rest & [-> | ->]); unfold _insert_queries; cbn [wrun wstep loop_test].
  - rewrite (wrun_terminated host port rest Finished) by reflexivity.
    split; reflexivity.
  - rewrite (wrun_terminated host port rest Died) by reflexivity.
    split; reflexivity.
Qed.

Lemma join_all_terminated (ph : phase) (i : nat) (ws : list (wstate * list event)) :
  Forall (fun wt => terminated (fst wt) = true) ws -> join_all ph i ws = None.
Proof.
  intros Hws. revert i. induction Hws as [|[w t] ws Hw Hws IH]; intros i;
    [reflexivity|].
  cbn [join_all]. cbn [fst] in Hw. rewrite Hw. apply IH.
Qed.

Lemma process_queries_zero (queries : list string) (n : nat) :
  process_queries queries n 0 = repeat [] n.
Proof.
  unfold process_queries.
  assert (H : forall a, map (fun i => slice (i * 0) (0 * (i + 1)) queries)
                            (seq a n) = repeat [] n).
  { induction n as [|n IH]; intros a; [reflexivity|].
    cbn [seq map repeat]. rewrite IH. f_equal. }
  apply H.
Qed.

Section Loader.
Context `{enc : LiteralEncoder}.
Variables (host : string) (port : Z).

(** C9.  With one CPU the number of processes is [1 // 2 = 0]; whatever
    the graph, the call raises [ZeroDivisionError] at the chunk size of the
    node round, and no process is created, no connection opened and no
    statement executed: the node round has no worker, and under every
    schedule nothing is observed. *)
Theorem single_cpu_raises_zero_division (env : environment) (g : Graph) :
  1 / 2 = 0 /\
  floordiv (length (yielded (_nx_nodes_to_cypher g))) (1 / 2) =
    inr ZeroDivisionError /\
  nx_graph_to_memgraph_parallel 1 env g host port =
    (RaisedExn ZeroDivisionError, graph_after (_nx_nodes_to_cypher g),
     [(NodePhase, [])]) /\
  (forall acts : list action,
     snd (run 1 host port acts (initial g)) = [] /\
     sys_pc (fst (run 1 host port (Parent :: acts) (initial g))) =
       Raised ZeroDivisionError).
Proof.
  split; [reflexivity|]. split; [reflexivity|].
  assert (Hround : run_round 0 host port env NodePhase g =
                   {| round_end := Some (RaisedExn ZeroDivisionError);
                      round_graph := graph_after (_nx_nodes_to_cypher g);
                      round_workers := [] |}).
  { unfold run_round. cbn [queries_gen]. rewrite _nx_nodes_to_cypher_eq.
    reflexivity. }
  split.
  { unfold nx_graph_to_memgraph_parallel.
    change (1 / 2) with 0. now rewrite Hround. }
  assert (Hstep : step 1 host port Parent (initial g) =
                  Some ({| sys_pc := Raised ZeroDivisionError;
                           sys_graph := graph_after (_nx_nodes_to_cypher g);
                           sys_processes := []; sys_owner := NodePhase |}, [])).
  { cbn [step]. change (1 / 2) with 0. unfold parent_step, initial.
    cbn [sys_pc sys_graph queries_gen]. rewrite _nx_nodes_to_cypher_eq.
    reflexivity. }
  assert (Hdead : forall acts gr,
             run 1 host port acts
                 {| sys_pc := Raised ZeroDivisionError; sys_graph := gr;
                    sys_processes := []; sys_owner := NodePhase |} =
             ({| sys_pc := Raised ZeroDivisionError; sys_graph := gr;
                 sys_processes := []; sys_owner := NodePhase |}, [])).
  { induction acts as [|act acts IH]; intros gr; [reflexivity|].
    cbn [run]. destruct act as [|i a].
    - cbn [step parent_step sys_pc]. apply IH.
    - cbn [step]. unfold child_step. cbn [sys_processes].
      destruct i; cbn [nth_error]; apply IH. }
  intros acts. split.
  - induction acts as [|act acts IH]; [reflexivity|].
    cbn [run]. destruct act as [|i a].
    + rewrite Hstep, Hdead. reflexivity.
    + cbn [step]. unfold child_step, initial at 1. cbn [sys_processes].
      destruct i; cbn [nth_error]; exact IH.
  - cbn [run]. rewrite Hstep, Hdead. reflexivity.
Qed.

(** C10, amended.  When the statement list of a round has length [L] with
    [0 < L < W], the chunk size is 0 and every one of the [W] workers gets
    the empty list.  Each worker whose connection attempt comes back
    terminates without attempting a statement, so the round ends without an
    outcome of its own, no error and no report: after the edge round the
    call returns; after the node round the call goes on to the edge round
    and ends as that round ends, so it returns exactly when the edge round
    ends. *)
Theorem short_round_executes_nothing (cpu_count : nat) (env : environment)
    (ph : phase) (graph : Graph) (queries : list string) :
  let W := cpu_count / 2 in
  let rd := run_round W host port env ph graph in
  list_of (queries_gen ph graph) = inl queries ->
  0 < length queries < W ->
  (forall i, i < W ->
     exists rest,
       env ph i = Connected :: rest \/ env ph i = ConnectFailed :: rest) ->
  floordiv (length queries) W = inl 0 /\
  partition queries W = inl (repeat [] W) /\
  length (round_workers rd) = W /\
  Forall (fun wt => terminated (fst wt) = true /\ attempts (snd wt) = [])
         (round_workers rd) /\
  round_end rd = None /\
  (ph = NodePhase ->
   fst (fst (nx_graph_to_memgraph_parallel cpu_count env graph host port)) =
   match round_end (run_round W host port env EdgePhase (round_graph rd)) with
   | Some o => o
   | None => ReturnedNone
   end) /\
  (forall g0,
     ph = EdgePhase ->
     round_end (run_round W host port env NodePhase g0) = None ->
     round_graph (run_round W host port env NodePhase g0) = graph ->
     fst (fst (nx_graph_to_memgraph_parallel cpu_count env g0 host port)) =
     ReturnedNone).
Proof.
  intros W rd Hlist HL Henv.
  assert (Hfd : floordiv (length queries) W = inl 0).
  { unfold floordiv. destruct (Nat.eqb_spec W 0) as [H0|H0]; [lia|].
    now rewrite Nat.div_small by lia. }
  assert (Hpart : partition queries W = inl (repeat [] W)).
  { unfold partition. now rewrite Hfd, process_queries_zero. }
  assert (Hrd : rd = {| round_end :=
                          join_all ph 0 (run_processes host port (env ph) (repeat [] W));
                        round_graph := graph_after (queries_gen ph graph);
                        round_workers :=
                          run_processes host port (env ph) (repeat [] W) |}).
  { unfold rd, run_round. now rewrite Hlist, Hpart. }
  assert (Hws : Forall (fun wt => terminated (fst wt) = true /\
                                  attempts (snd wt) = [])
                       (run_processes host port (env ph) (repeat [] W))).
  { apply Forall_forall. intros wt Hin. unfold run_processes in Hin.
    apply in_map_iff in Hin. destruct Hin as ([i q] & <- & Hin).
    pose proof (in_combine_l _ _ _ _ Hin) as Hi.
    pose proof (in_combine_r _ _ _ _ Hin) as Hq.
    apply repeat_spec in Hq. subst q.
    apply in_seq in Hi. rewrite repeat_length in Hi. cbn [fst snd].
    apply _insert_queries_empty. apply Henv. lia. }
  assert (Hend : round_end rd = None).
  { rewrite Hrd. cbn [round_end]. apply join_all_terminated.
    eapply Forall_impl; [|exact Hws]. now intros wt [Ht _]. }
  split; [exact Hfd|]. split; [exact Hpart|]. split.
  { rewrite Hrd. cbn [round_workers]. unfold run_processes.
    now rewrite length_map, length_combine, length_seq, repeat_length, Nat.min_id. }
  split; [now rewrite Hrd|]. split; [exact Hend|]. split.
  - intros ->. unfold nx_graph_to_memgraph_parallel. fold W. fold rd.
    now rewrite Hend.
  - intros g0 -> Hn Hg. unfold nx_graph_to_memgraph_parallel. fold W.
    rewrite Hn, Hg. fold rd. now rewrite Hend.
Qed.

End Loader.

Lemma short_round_executes_nothing_witness :
  round_end (@run_round spec_encoder (8 / 2) "127.0.0.1" 7687
               (fun _ _ => [Connected]) NodePhase plain_pair) = None /\
  Forall (fun wt => terminated (fst wt) = true /\ attempts (snd wt) = [])
    (round_workers (@run_round spec_encoder (8 / 2) "127.0.0.1" 7687
                      (fun _ _ => [Connected]) NodePhase plain_pair)).
Proof.
  destruct (@short_round_executes_nothing spec_encoder "127.0.0.1" 7687 8
              (fun _ _ => [Connected]) NodePhase plain_pair
              ["CREATE (:Person {id: 0});"; "CREATE ( {id: 1});"]
              eq_refl
              ltac:(cbn; lia)
              ltac:(intros i _; exists []; now left))
    as (_ & _ & _ & Hws & Hend & _).
  split; [exact Hend | exact Hws].
Defined.

(* ===================================================================== *)
(** ** The parallel loader, interleaved *)
(* ===================================================================== *)

Lemma length_list_set {A : Type} (i : nat) (x : A) (l : list A) :
  length (list_set i x l) = length l.
Proof.
  revert i. induction l as [|y l IH]; intros [|i]; cbn; auto.
Qed.

Lemma nth_error_list_set_eq {A : Type} (i : nat) (x y : A) (l : list A) :
  nth_error l i = Some y -> nth_error (list_set i x l) i = Some x.
Proof.
  revert i. induction l as [|z l IH]; intros [|i]; cbn; try discriminate; auto.
Qed.

Lemma nth_error_list_set_ne {A : Type} (i j : nat) (x : A) (l : list A) :
  i <> j -> nth_error (list_set i x l) j = nth_error l j.
Proof.
  revert i j. induction l as [|z l IH]; intros [|i] [|j] Hne; cbn; auto;
    try contradiction; try (apply IH; lia).
Qed.

Lemma wstep_terminated (host : string) (port : Z) (a : answer) (w : wstate) :
  terminated w = true -> wstep host port a w = None.
Proof. destruct w; try discriminate; reflexivity. Qed.

(** The step in which a worker terminates shows its [Exit]. *)
Lemma wstep_exit (host : string) (port : Z) (a : answer) (w w' : wstate)
    (evs : list event) :
  wstep host port a w = Some (w', evs) -> terminated w' = true -> In Exit evs.
Proof.
  destruct w as [qs|qs| |]; destruct a as [| |r]; cbn [wstep];
    try discriminate.
  - destruct (loop_test_cases qs) as [-> | ->]; intros [= <- <-] Ht;
      [cbn; auto | discriminate Ht].
  - intros [= <- <-] _. cbn. auto.
  - intros [= Hb] Ht.
    destruct (pop_cases qs) as [->|(rest & query & ->)].
    + cbn in Hb. injection Hb as <- <-. cbn. auto.
    + rewrite loop_body_snoc in Hb.
      destruct r; injection Hb as <- <-; try (cbn; now auto);
        try discriminate Ht.
      destruct (loop_test_cases rest) as [Hl | Hl]; rewrite Hl in *;
        cbn [fst snd] in *; [cbn; auto | discriminate Ht].
Qed.

Lemma child_step_inv (host : string) (port : Z) (i : nat) (a : answer)
    (s s' : sys) (evs : list gevent) :
  child_step host port i a s = Some (s', evs) ->
  exists w w' evs0,
    nth_error (sys_processes s) i = Some (Started w) /\
    wstep host port a w = Some (w', evs0) /\
    s' = {| sys_pc := sys_pc s; sys_graph := sys_graph s;
            sys_processes := list_set i (Started w') (sys_processes s);
            sys_owner := sys_owner s |} /\
    evs = map (Worker (sys_owner s) i) evs0.
Proof.
  unfold child_step.
  destruct (nth_error (sys_processes s) i) as [[q|w]|] eqn:Hn; try discriminate.
  destruct (wstep host port a w) as [[w' evs0]|] eqn:Hw; try discriminate.
  intros [= <- <-]. exists w, w', evs0. auto.
Qed.

Lemma quiet_child_step (host : string) (port : Z) (i : nat) (a : answer)
    (s : sys) :
  quiet s -> child_step host port i a s = None.
Proof.
  intros Hq. unfold child_step.
  destruct (nth_error (sys_processes s) i) as [[q|w]|] eqn:Hn; try reflexivity.
  apply nth_error_In in Hn.
  unfold quiet in Hq. rewrite Forall_forall in Hq.
  destruct (Hq _ Hn) as (w0 & [= <-] & Ht).
  now rewrite wstep_terminated.
Qed.

Lemma map_worker_in_phase (ph : phase) (i : nat) (evs : list event) :
  Forall (in_phase ph) (map (Worker ph i) evs).
Proof. apply Forall_forall. intros e Hin. apply in_map_iff in Hin.
       now destruct Hin as (x & <- & _). Qed.

Section Interleaving.
Context `{enc : LiteralEncoder}.
Variables (cpu_count : nat) (host : string) (port : Z).

(** Once the parent has left the node round, every step belongs to the
    edge round. *)
Lemma edge_side_step (act : action) (s s' : sys) (evs : list gevent) :
  edge_side s ->
  step cpu_count host port act s = Some (s', evs) ->
  edge_side s' /\ Forall (in_phase EdgePhase) evs.
Proof.
  intros Hs Hstep. destruct act as [|i a]; cbn [step] in Hstep.
  - (* the parent *)
    unfold parent_step in Hstep.
    destruct Hs as [[Hown Hpc] | [Hq Hpc]].
    + destruct Hpc as [[k Hpc] | [[k Hpc] | Hpc]]; rewrite Hpc in Hstep.
      * destruct (nth_error (sys_processes s) k) as [[q|w]|];
          try discriminate; injection Hstep as <- <-.
        -- split; [|repeat constructor]. left. cbn. split; [exact Hown|].
           left. eauto.
        -- split; [|constructor]. left. cbn. split; [exact Hown|].
           right. left. eauto.
      * destruct (nth_error (sys_processes s) k) as [[q|w]|];
          try discriminate.
        -- destruct (terminated w); try discriminate.
           injection Hstep as <- <-.
           split; [|repeat constructor]. left. cbn. split; [exact Hown|].
           right. left. eauto.
        -- injection Hstep as <- <-.
           split; [|constructor]. left. cbn. split; [exact Hown|].
           right. right. reflexivity.
      * discriminate.
    + destruct Hpc as [Hpc | [e Hpc]]; rewrite Hpc in Hstep; [|discriminate].
      destruct (list_of (queries_gen EdgePhase (sys_graph s))) as [queries|e].
      * destruct (partition queries (cpu_count / 2)) as [chunks|e];
          injection Hstep as <- <-.
        -- split; [|repeat constructor]. left. cbn. split; [reflexivity|].
           left. eauto.
        -- split; [|constructor]. right. split; [exact Hq|]. cbn. eauto.
      * injection Hstep as <- <-.
        split; [|constructor]. right. split; [exact Hq|]. cbn. eauto.
  - (* a process *)
    destruct Hs as [[Hown Hpc] | [Hq Hpc]].
    + apply child_step_inv in Hstep.
      destruct Hstep as (w & w' & evs0 & Hn & Hw & -> & ->).
      split; [|rewrite Hown; apply map_worker_in_phase].
      left. cbn. split; [exact Hown | exact Hpc].
    + now rewrite quiet_child_step in Hstep.
Qed.

Lemma edge_side_trace (acts : list action) (s : sys) :
  edge_side s -> Forall (in_phase EdgePhase) (snd (run cpu_count host port acts s)).
Proof.
  revert s. induction acts as [|act acts IH]; intros s Hs; [constructor|].
  cbn [run]. destruct (step cpu_count host port act s) as [[s' evs]|] eqn:Hstep.
  - destruct (edge_side_step act s s' evs Hs Hstep) as [Hs' Hevs].
    specialize (IH s' Hs').
    destruct (run cpu_count host port acts s') as [s'' t]. cbn [snd] in *.
    apply Forall_app. auto.
  - apply IH, Hs.
Qed.

(** After an exception of the parent with no process running, nothing
    happens any more. *)
Lemma stopped_trace (acts : list action) (s : sys) (e : exn) :
  quiet s -> sys_pc s = Raised e -> run cpu_count host port acts s = (s, []).
Proof.
  intros Hq Hpc. induction acts as [|act acts IH]; [reflexivity|].
  cbn [run]. destruct act as [|i a]; cbn [step].
  - unfold parent_step. rewrite Hpc. exact IH.
  - rewrite quiet_child_step by exact Hq. exact IH.
Qed.

Lemma exited_quiet (s : sys) (k : nat) :
  length (sys_processes s) <= k -> (forall i, i < k -> exited s i) -> quiet s.
Proof.
  intros Hlen Hex. unfold quiet. apply Forall_forall. intros p Hin.
  apply In_nth_error in Hin. destruct Hin as [i Hi].
  assert (Hlt : i < length (sys_processes s))
    by (apply nth_error_Some; congruence).
  destruct (Hex i ltac:(lia)) as (w & Hn & Ht).
  exists w. split; [congruence | exact Ht].
Qed.

(** What one step does in the node round: it stays in the node round and
    shows the exit of a process that terminates in it and the join of a
    process the parent joins in it; or the parent stops on an exception
    before it has created a process; or the parent, all processes joined,
    leaves the node round. *)
Lemma node_side_step (act : action) (s s' : sys) (evs : list gevent) :
  node_side (cpu_count / 2) s ->
  step cpu_count host port act s = Some (s', evs) ->
  (node_side (cpu_count / 2) s' /\ Forall (in_phase NodePhase) evs /\
   (forall i, exited s' i -> exited s i \/ In (Worker NodePhase i Exit) evs) /\
   (forall i, joined s' i -> joined s i \/ In (ProcessJoined NodePhase i) evs) /\
   sys_pc s' <> AtList NodePhase /\
   (sys_pc s = AtList NodePhase ->
    exists chunks, In (Partitioned NodePhase chunks) evs)) \/
  (evs = [] /\ quiet s' /\ exists e, sys_pc s' = Raised e) \/
  (evs = [] /\ edge_side s' /\ sys_pc s <> AtList NodePhase /\
   forall i, i < cpu_count / 2 -> exited s i /\ joined s i).
Proof.
  intros [Hown Hpc] Hstep. destruct act as [|i a]; cbn [step] in Hstep.
  - (* the parent *)
    unfold parent_step in Hstep.
    destruct Hpc as [[Hpc Hnil] | [(k & Hpc & Hlen) | (k & Hpc & Hlen & Hex)]];
      rewrite Hpc in Hstep.
    + (* line 44 *)
      cbn [queries_gen] in Hstep. rewrite _nx_nodes_to_cypher_eq in Hstep.
      cbn [list_of raised yielded graph_after] in Hstep.
      match type of Hstep with
      | context [partition ?qs ?n] =>
          destruct (partition qs n) as [chunks|e] eqn:Hp
      end; injection Hstep as <- <-.
      * left. split; [|split; [|split; [|split; [|split]]]].
        -- split; [reflexivity|]. right. left. exists 0. cbn.
           split; [reflexivity|]. rewrite length_map.
           unfold partition in Hp.
           match type of Hp with
           | context [floordiv ?a ?b] => destruct (floordiv a b)
           end; [|discriminate].
           injection Hp as <-. apply process_queries_length.
        -- repeat constructor.
        -- intros i (w & Hn & _). cbn in Hn.
           rewrite nth_error_map in Hn.
           destruct (nth_error chunks i); discriminate.
        -- intros i (k & Hk & _). discriminate.
        -- discriminate.
        -- intros _. exists chunks. now left.
      * right. left. split; [reflexivity|]. split; [|cbn; eauto].
        unfold quiet. cbn. rewrite Hnil. constructor.
    + (* line 56 *)
      destruct (nth_error (sys_processes s) k) as [[q|w]|] eqn:Hn;
        try discriminate; injection Hstep as <- <-.
      * left. split; [|split; [|split; [|split; [|split]]]].
        -- split; [exact Hown|]. right. left. exists (S k). cbn.
           split; [reflexivity|]. now rewrite length_list_set.
        -- repeat constructor.
        -- intros i (w & Hi & Ht). cbn in Hi. left.
           destruct (Nat.eq_dec k i) as [<-|Hne].
           ++ rewrite (nth_error_list_set_eq k _ _ _ Hn) in Hi.
              injection Hi as <-. discriminate Ht.
           ++ rewrite nth_error_list_set_ne in Hi by exact Hne.
              exists w. auto.
        -- intros i (k' & Hk & _). discriminate.
        -- discriminate.
        -- intros Hc. congruence.
      * left. split; [|split; [|split; [|split; [|split]]]].
        -- split; [exact Hown|]. right. right. exists 0. cbn.
           split; [reflexivity|]. split; [exact Hlen|]. intros i Hi. lia.
        -- constructor.
        -- intros i Hi. left. exact Hi.
        -- intros i (k' & Hk & Hlt). injection Hk as <-. lia.
        -- discriminate.
        -- intros Hc. congruence.
    + (* line 58 *)
      destruct (nth_error (sys_processes s) k) as [[q|w]|] eqn:Hn;
        try discriminate.
      * destruct (terminated w) eqn:Ht; try discriminate.
        injection Hstep as <- <-.
        left. split; [|split; [|split; [|split; [|split]]]].
        -- split; [exact Hown|]. right. right. exists (S k). cbn.
           split; [reflexivity|]. split; [exact Hlen|]. intros i Hi.
           destruct (Nat.eq_dec i k) as [->|Hne].
           ++ exists w. auto.
           ++ apply Hex. lia.
        -- repeat constructor.
        -- intros i Hi. left. exact Hi.
        -- intros i (k' & Hk & Hlt). injection Hk as <-.
           destruct (Nat.eq_dec i k) as [->|Hne].
           ++ right. now left.
           ++ left. exists k. split; [exact Hpc | lia].
        -- discriminate.
        -- intros Hc. congruence.
      * injection Hstep as <- <-.
        apply nth_error_None in Hn.
        right. right. split; [reflexivity|]. split; [|split].
        -- right. split; [|left; reflexivity].
           apply (exited_quiet s k Hn Hex).
        -- congruence.
        -- intros i Hi. split.
           ++ apply Hex. lia.
           ++ exists k. split; [exact Hpc | lia].
  - (* a process *)
    apply child_step_inv in Hstep.
    destruct Hstep as (w & w' & evs0 & Hn & Hw & -> & ->).
    left. rewrite Hown. split; [|split; [|split; [|split; [|split]]]].
    + split; [reflexivity|]. cbn [sys_pc sys_processes].
      destruct Hpc as [[Hpc Hnil] | [(k & Hpc & Hlen) | (k & Hpc & Hlen & Hex)]].
      * rewrite Hnil in Hn. destruct i; discriminate Hn.
      * right. left. exists k. now rewrite length_list_set.
      * right. right. exists k. rewrite length_list_set.
        split; [exact Hpc|]. split; [exact Hlen|].
        intros j Hj. destruct (Hex j Hj) as (wj & Hnj & Htj).
        exists wj. split; [|exact Htj]. cbn [sys_processes].
        rewrite nth_error_list_set_ne; [exact Hnj|].
        intros <-. rewrite Hn in Hnj. injection Hnj as <-.
        rewrite wstep_terminated in Hw by exact Htj. discriminate Hw.
    + apply map_worker_in_phase.
    + intros j (wj & Hnj & Htj). cbn [sys_processes] in Hnj.
      destruct (Nat.eq_dec i j) as [<-|Hne].
      * rewrite (nth_error_list_set_eq i _ _ _ Hn) in Hnj.
        injection Hnj as <-. right.
        apply in_map. eapply wstep_exit; eauto.
      * rewrite nth_error_list_set_ne in Hnj by exact Hne.
        left. exists wj. auto.
    + intros j Hj. left. exact Hj.
    + cbn [sys_pc].
      destruct Hpc as [[Hpc Hnil] | [(k & Hpc & Hlen) | (k & Hpc & Hlen & Hex)]].
      * rewrite Hnil in Hn. destruct i; discriminate Hn.
      * congruence.
      * congruence.
    + intros Hc.
      destruct Hpc as [[Hpc Hnil] | [(k & Hpc & Hlen) | (k & Hpc & Hlen & Hex)]].
      * rewrite Hnil in Hn. destruct i; discriminate Hn.
      * congruence.
      * congruence.
Qed.

(** A trace that starts with events of the node round has its first event
    of the edge round after them. *)
Lemma split_after_node_events (evs t t1 t2 : list gevent) (e : gevent) :
  Forall (in_phase NodePhase) evs -> in_phase EdgePhase e ->
  evs ++ t = t1 ++ e :: t2 ->
  exists t1', t1 = evs ++ t1' /\ t = t1' ++ e :: t2.
Proof.
  intros Hevs He. revert t1.
  induction Hevs as [|x evs Hx Hevs IH]; intros t1 Heq.
  - exists t1. auto.
  - destruct t1 as [|y t1]; cbn [app] in Heq; injection Heq as Hxy Heq.
    + subst x. unfold in_phase in *. congruence.
    + subst y. destruct (IH t1 Heq) as (t1' & -> & ->).
      exists t1'. auto.
Qed.

Lemma node_side_trace (acts : list action) (s : sys) (t1 t2 : list gevent)
    (e : gevent) :
  node_side (cpu_count / 2) s ->
  snd (run cpu_count host port acts s) = t1 ++ e :: t2 ->
  in_phase EdgePhase e ->
  Forall (in_phase EdgePhase) t2 /\
  (sys_pc s <> AtList NodePhase \/
   exists chunks, In (Partitioned NodePhase chunks) t1) /\
  forall i, i < cpu_count / 2 ->
    (exited s i \/ In (Worker NodePhase i Exit) t1) /\
    (joined s i \/ In (ProcessJoined NodePhase i) t1).
Proof.
  revert s t1. induction acts as [|act acts IH]; intros s t1 Hs Heq He.
  - cbn in Heq. now destruct t1.
  - cbn [run] in Heq.
    destruct (step cpu_count host port act s) as [[s' evs]|] eqn:Hstep;
      [|now apply IH].
    destruct (node_side_step act s s' evs Hs Hstep)
      as [(Hs' & Hevs & Hex & Hjn & Hpc' & Hpart)
         | [(-> & Hq & (ex & Hpc')) | (-> & Hs' & Hpc & Hall)]].
    + destruct (run cpu_count host port acts s') as [s'' t] eqn:Hrun.
      cbn [snd] in Heq.
      destruct (split_after_node_events evs t t1 t2 e Hevs He Heq)
        as (t1' & -> & Ht).
      assert (Heq' : snd (run cpu_count host port acts s') = t1' ++ e :: t2)
        by now rewrite Hrun.
      destruct (IH s' t1' Hs' Heq' He) as (Ht2 & Hp & Hi).
      split; [exact Ht2|]. split.
      * destruct (sys_pc s) as [[|]| | | |] eqn:Hpcs;
          try (left; discriminate).
        right. destruct (Hpart eq_refl) as (chunks & Hin).
        exists chunks. apply in_or_app. now left.
      * intros i Hlt. destruct (Hi i Hlt) as [Hei Hji]. split.
        -- destruct Hei as [Hei|Hei].
           ++ destruct (Hex i Hei) as [H|H]; [now left|].
              right. apply in_or_app. now left.
           ++ right. apply in_or_app. now right.
        -- destruct Hji as [Hji|Hji].
           ++ destruct (Hjn i Hji) as [H|H]; [now left|].
              right. apply in_or_app. now left.
           ++ right. apply in_or_app. now right.
    + rewrite (stopped_trace acts s' ex Hq Hpc') in Heq. cbn in Heq.
      now destruct t1.
    + pose proof (edge_side_trace acts s' Hs') as Hedge.
      destruct (run cpu_count host port acts s') as [s'' t]. cbn [snd app] in *.
      subst t. apply Forall_app in Hedge. destruct Hedge as [_ Hedge].
      apply Forall_cons_iff in Hedge. destruct Hedge as [_ Ht2].
      split; [exact Ht2|]. split; [now left|].
      intros i Hlt. destruct (Hall i Hlt). auto.
Qed.

End Interleaving.


(* ===================================================================== *)
(** ** The two views of the loader agree *)
(* ===================================================================== *)

Lemma list_set_app_mid {A : Type} (n : nat) (l1 l2 : list A) (x y : A) :
  n = length l1 -> list_set n x (l1 ++ y :: l2) = l1 ++ x :: l2.
Proof.
  intros ->. induction l1 as [|z l1 IH]; cbn; [reflexivity | now rewrite IH].
Qed.

Lemma nth_error_app_mid {A : Type} (n : nat) (l1 l2 : list A) (y : A) :
  n = length l1 -> nth_error (l1 ++ y :: l2) n = Some y.
Proof. intros ->. induction l1 as [|z l1 IH]; cbn; auto. Qed.

Lemma nth_error_app_end {A : Type} (l : list A) :
  nth_error l (length l) = None.
Proof. apply nth_error_None. lia. Qed.

Lemma list_set_same {A : Type} (i : nat) (x : A) (l : list A) :
  nth_error l i = Some x -> list_set i x l = l.
Proof.
  revert i. induction l as [|y l IH]; intros [|i]; cbn; try discriminate.
  - now intros [= ->].
  - intros Hn. now rewrite IH.
Qed.

Lemma list_set_twice {A : Type} (i : nat) (x y : A) (l : list A) :
  list_set i x (list_set i y l) = list_set i x l.
Proof.
  revert i. induction l as [|z l IH]; intros [|i]; cbn; auto.
  now rewrite IH.
Qed.

Lemma combine_map_r {A B C : Type} (h : B -> C) (l : list A) (l' : list B) :
  combine l (map h l') = map (fun p => (fst p, h (snd p))) (combine l l').
Proof.
  revert l'. induction l as [|a l IH]; intros [|b l']; cbn; auto.
  now rewrite IH.
Qed.

Lemma combine_seq_map {A B : Type} (F : nat -> A -> B) (a n : nat) (l : list A) :
  combine (seq a n) (map (fun iw => F (fst iw) (snd iw)) (combine (seq a n) l)) =
  map (fun iw => (fst iw, F (fst iw) (snd iw))) (combine (seq a n) l).
Proof.
  revert a l. induction n as [|n IH]; intros a [|x l]; cbn; auto.
  now rewrite IH.
Qed.

Section Agreement.
Context `{enc : LiteralEncoder}.
Variables (cpu_count : nat) (host : string) (port : Z).

Lemma run_app (acts1 acts2 : list action) (s : sys) :
  run cpu_count host port (acts1 ++ acts2) s =
  (fst (run cpu_count host port acts2 (fst (run cpu_count host port acts1 s))),
   snd (run cpu_count host port acts1 s)
   ++ snd (run cpu_count host port acts2 (fst (run cpu_count host port acts1 s)))).
Proof.
  revert s. induction acts1 as [|act acts1 IH]; intros s; cbn [app run fst snd].
  - now destruct (run cpu_count host port acts2 s).
  - destruct (step cpu_count host port act s) as [[s' evs]|]; [|apply IH].
    rewrite IH.
    destruct (run cpu_count host port acts1 s') as [s1 t1]. cbn [fst snd].
    now rewrite app_assoc.
Qed.

Lemma run_cons_eq (act : action) (acts : list action) (s s1 s2 : sys)
    (evs t : list gevent) :
  step cpu_count host port act s = Some (s1, evs) ->
  run cpu_count host port acts s1 = (s2, t) ->
  run cpu_count host port (act :: acts) s = (s2, evs ++ t).
Proof. intros Hs Hr. cbn [run]. now rewrite Hs, Hr. Qed.

Lemma run_app_eq (acts1 acts2 : list action) (s s1 s2 : sys)
    (t1 t2 : list gevent) :
  run cpu_count host port acts1 s = (s1, t1) ->
  run cpu_count host port acts2 s1 = (s2, t2) ->
  run cpu_count host port (acts1 ++ acts2) s = (s2, t1 ++ t2).
Proof. intros H1 H2. rewrite run_app, H1. cbn [fst snd]. now rewrite H2. Qed.

(** Lines 55-56: the parent starts the processes one after the other. *)
Lemma run_start_all (ph owner : phase) (g : Graph) (todo : list (list string))
    (done : list wstate) :
  run cpu_count host port (repeat Parent (length todo))
      {| sys_pc := AtStart ph (length done); sys_graph := g;
         sys_processes := map Started done ++ map Created todo;
         sys_owner := owner |} =
  ({| sys_pc := AtStart ph (length done + length todo); sys_graph := g;
      sys_processes := map Started (done ++ map Connecting todo);
      sys_owner := owner |},
   map (ProcessStarted ph) (seq (length done) (length todo))).
Proof.
  revert done. induction todo as [|q todo IH]; intros done.
  - cbn. now rewrite Nat.add_0_r, !app_nil_r.
  - cbn [length repeat run step map seq].
    unfold parent_step. cbn [sys_pc sys_processes sys_graph sys_owner].
    rewrite nth_error_app_mid, list_set_app_mid by now rewrite length_map.
    specialize (IH (done ++ [Connecting q])).
    rewrite length_app, map_app in IH. cbn [length map] in IH.
    rewrite <- app_assoc in IH. cbn [app] in IH.
    rewrite Nat.add_1_r in IH. rewrite IH.
    rewrite <- app_assoc. cbn [app]. now rewrite Nat.add_succ_r.
Qed.

(** A process against its answers, the others waiting. *)
Lemma run_child (i : nat) (answers : list answer) (pc : control) (g : Graph)
    (owner : phase) (procs : list proc) (w : wstate) :
  nth_error procs i = Some (Started w) ->
  run cpu_count host port (map (Child i) answers)
      {| sys_pc := pc; sys_graph := g; sys_processes := procs;
         sys_owner := owner |} =
  ({| sys_pc := pc; sys_graph := g;
      sys_processes :=
        list_set i (Started (fst (wrun host port answers w))) procs;
      sys_owner := owner |},
   map (Worker owner i) (snd (wrun host port answers w))).
Proof.
  revert procs w. induction answers as [|a answers IH]; intros procs w Hn.
  - cbn. now rewrite list_set_same.
  - cbn [map run step wrun]. unfold child_step.
    cbn [sys_pc sys_graph sys_processes sys_owner]. rewrite Hn.
    destruct (wstep host port a w) as [[w' evs]|] eqn:Hw.
    + rewrite (IH _ w') by (eapply nth_error_list_set_eq; eauto).
      destruct (wrun host port answers w') as [w'' evs']. cbn [fst snd].
      now rewrite list_set_twice, map_app.
    + now apply IH.
Qed.

(** Process after process against its answers. *)
Lemma run_children (answers : nat -> list answer) (pc : control) (g : Graph)
    (owner : phase) (todo done : list wstate) :
  run cpu_count host port
      (flat_map (fun i => map (Child i) (answers i))
                (seq (length done) (length todo)))
      {| sys_pc := pc; sys_graph := g;
         sys_processes := map Started (done ++ todo); sys_owner := owner |} =
  ({| sys_pc := pc; sys_graph := g;
      sys_processes :=
        map Started
            (done ++ map (fun iw => fst (wrun host port (answers (fst iw)) (snd iw)))
                         (combine (seq (length done) (length todo)) todo));
      sys_owner := owner |},
   flat_map (fun iw => map (Worker owner (fst iw))
                           (snd (wrun host port (answers (fst iw)) (snd iw))))
            (combine (seq (length done) (length todo)) todo)).
Proof.
  revert done. induction todo as [|w todo IH]; intros done.
  - reflexivity.
  - cbn [length seq flat_map combine map fst snd].
    rewrite run_app.
    rewrite (run_child (length done) (answers (length done)) pc g owner _ w)
      by (rewrite map_app; cbn [map]; apply nth_error_app_mid;
          now rewrite length_map).
    cbn [fst snd]. rewrite map_app. cbn [map].
    rewrite list_set_app_mid by now rewrite length_map.
    specialize (IH (done ++ [fst (wrun host port (answers (length done)) w)])).
    rewrite length_app in IH. cbn [length] in IH. rewrite Nat.add_1_r in IH.
    rewrite <- app_assoc in IH. cbn [app] in IH.
    rewrite map_app in IH. cbn [map] in IH. rewrite IH. cbn [fst snd].
    rewrite <- app_assoc. cbn [app]. now rewrite map_app.
Qed.

(** Lines 57-58: the parent joins the processes, all of them terminated. *)
Lemma run_join_all (ph owner : phase) (g : Graph) (todo done : list wstate) :
  Forall (fun w => terminated w = true) todo ->
  run cpu_count host port (repeat Parent (length todo))
      {| sys_pc := AtJoin ph (length done); sys_graph := g;
         sys_processes := map Started (done ++ todo); sys_owner := owner |} =
  ({| sys_pc := AtJoin ph (length done + length todo); sys_graph := g;
      sys_processes := map Started (done ++ todo); sys_owner := owner |},
   map (ProcessJoined ph) (seq (length done) (length todo))).
Proof.
  intros Hall. revert done.
  induction Hall as [|w todo Hw Hall IH]; intros done.
  - cbn. now rewrite Nat.add_0_r.
  - cbn [length repeat run step map seq].
    unfold parent_step. cbn [sys_pc sys_processes sys_graph sys_owner].
    rewrite map_app. cbn [map].
    rewrite nth_error_app_mid by now rewrite length_map.
    rewrite Hw.
    specialize (IH (done ++ [w])).
    rewrite length_app in IH. cbn [length] in IH. rewrite Nat.add_1_r in IH.
    rewrite <- app_assoc in IH. cbn [app] in IH.
    rewrite map_app in IH. cbn [map] in IH. rewrite IH.
    now rewrite Nat.add_succ_r.
Qed.

Lemma join_all_none (ph : phase) (i : nat) (ws : list (wstate * list event)) :
  join_all ph i ws = None ->
  Forall (fun w => terminated w = true) (map fst ws).
Proof.
  revert i. induction ws as [|[w t] ws IH]; intros i Hj; [constructor|].
  cbn [join_all] in Hj. destruct (terminated w) eqn:Hw; [|discriminate].
  constructor; [exact Hw | eapply IH; eauto].
Qed.

Lemma run_processes_eq (answers : nat -> list answer) (chunks : list (list string)) :
  run_processes host port answers chunks =
  map (fun iw => wrun host port (answers (fst iw)) (snd iw))
      (combine (seq 0 (length chunks)) (map Connecting chunks)).
Proof.
  unfold run_processes, _insert_queries.
  now rewrite combine_map_r, map_map.
Qed.

(** A round that ends in the worker-by-worker view is the run of its
    sequential schedule in the interleaved view: same graph, same final
    state of every process, and every process shows the trace the
    worker-by-worker view gives it. *)
Theorem completed_round_is_scheduled (env : environment) (ph : phase) (s : sys) :
  sys_pc s = AtList ph ->
  round_end (run_round (cpu_count / 2) host port env ph (sys_graph s)) = None ->
  exists chunks,
    run cpu_count host port (round_schedule (cpu_count / 2) (env ph)) s =
    ({| sys_pc := after_round ph;
        sys_graph :=
          round_graph (run_round (cpu_count / 2) host port env ph (sys_graph s));
        sys_processes :=
          map (fun wt => Started (fst wt))
              (round_workers
                 (run_round (cpu_count / 2) host port env ph (sys_graph s)));
        sys_owner := ph |},
     Partitioned ph chunks
       :: map (ProcessStarted ph) (seq 0 (cpu_count / 2))
       ++ flat_map (fun iwt => map (Worker ph (fst iwt)) (snd (snd iwt)))
            (combine (seq 0 (cpu_count / 2))
               (round_workers
                  (run_round (cpu_count / 2) host port env ph (sys_graph s))))
       ++ map (ProcessJoined ph) (seq 0 (cpu_count / 2))).
Proof.
  intros Hpc Hend. destruct s as [pc g procs owner]. cbn in Hpc. subst pc.
  cbn [sys_graph] in *. unfold run_round in *.
  destruct (list_of (queries_gen ph g)) as [queries|e] eqn:Hl; [|discriminate].
  destruct (partition queries (cpu_count / 2)) as [chunks|e] eqn:Hp;
    [|discriminate].
  cbn [round_end round_graph round_workers] in *. exists chunks.
  assert (Hlen : length chunks = cpu_count / 2).
  { unfold partition in Hp.
    destruct (floordiv (length queries) (cpu_count / 2)); [|discriminate].
    injection Hp as <-. apply process_queries_length. }
  apply join_all_none in Hend.
  rewrite run_processes_eq in *.
  set (ws := map (fun iw => wrun host port (env ph (fst iw)) (snd iw))
                 (combine (seq 0 (length chunks)) (map Connecting chunks))) in *.
  assert (Hws : length ws = length chunks).
  { unfold ws. now rewrite length_map, length_combine, length_seq, length_map,
      Nat.min_id. }
  pose proof (run_start_all ph ph (graph_after (queries_gen ph g)) chunks [])
    as Hstart.
  cbn [length app map Nat.add] in Hstart.
  pose proof (run_children (env ph) (AtJoin ph 0)
                (graph_after (queries_gen ph g)) ph (map Connecting chunks) [])
    as Hchildren.
  cbn [length app] in Hchildren. rewrite length_map in Hchildren.
  pose proof (run_join_all ph ph (graph_after (queries_gen ph g))
                (map fst ws) [] Hend) as Hjoin.
  cbn [length app Nat.add] in Hjoin. rewrite length_map, Hws in Hjoin.
  assert (Hfst : map fst ws =
                 map (fun iw => fst (wrun host port (env ph (fst iw)) (snd iw)))
                     (combine (seq 0 (length chunks)) (map Connecting chunks)))
    by (unfold ws; now rewrite map_map).
  rewrite Hfst in Hjoin.
  unfold round_schedule. rewrite <- Hlen.
  etransitivity.
  { eapply run_cons_eq.
    { cbn [step]. unfold parent_step.
      cbn [sys_pc sys_graph sys_processes sys_owner].
      rewrite Hl, Hp. reflexivity. }
    eapply run_app_eq; [exact Hstart|].
    eapply run_cons_eq.
    { cbn [step]. unfold parent_step.
      cbn [sys_pc sys_graph sys_processes sys_owner].
      replace (nth_error (map Started (map Connecting chunks)) (length chunks))
        with (@None proc)
        by (symmetry; apply nth_error_None; now rewrite !length_map).
      reflexivity. }
    eapply run_app_eq; [exact Hchildren|].
    eapply run_app_eq; [exact Hjoin|].
    eapply run_cons_eq; [|reflexivity].
    cbn [step]. unfold parent_step.
    cbn [sys_pc sys_graph sys_processes sys_owner].
    match goal with
    | |- context [nth_error ?l (length chunks)] =>
        replace (nth_error l (length chunks)) with (@None proc)
          by (symmetry; apply nth_error_None; rewrite !length_map;
              rewrite length_combine, length_seq, length_map; lia)
    end.
    reflexivity. }
  cbn [app]. rewrite !app_nil_r. f_equal.
  - f_equal. unfold ws. now rewrite !map_map.
  - f_equal. f_equal. f_equal.
    unfold ws.
    rewrite (combine_seq_map (fun i w => wrun host port (env ph i) w)).
    rewrite !flat_map_concat_map, map_map. reflexivity.
Qed.

Lemma join_all_blocked (ph : phase) (i : nat) (ws : list (wstate * list event))
    (o : outcome) :
  join_all ph i ws = Some o -> exists j, o = Blocked ph j.
Proof.
  revert i. induction ws as [|[w t] ws IH]; intros i Hj; [discriminate|].
  cbn [join_all] in Hj. destruct (terminated w).
  - eapply IH; eauto.
  - injection Hj as <-. eauto.
Qed.

Lemma round_end_not_returned (env : environment) (ph : phase) (g : Graph) :
  round_end (run_round (cpu_count / 2) host port env ph g) <> Some ReturnedNone.
Proof.
  unfold run_round.
  destruct (list_of (queries_gen ph g)) as [queries|e]; [|discriminate].
  destruct (partition queries (cpu_count / 2)) as [chunks|e]; [|discriminate].
  cbn [round_end]. intros Hj. apply join_all_blocked in Hj.
  destruct Hj as [j Hj]. discriminate Hj.
Qed.

(** When the call returns in the worker-by-worker view, the sequential
    schedules of the two rounds, one after the other, take the interleaved
    system from the call to its return, with the same graph. *)
Theorem returned_call_is_scheduled (env : environment) (g : Graph) :
  fst (fst (nx_graph_to_memgraph_parallel cpu_count env g host port)) =
    ReturnedNone ->
  sys_pc (fst (run cpu_count host port
                 (round_schedule (cpu_count / 2) (env NodePhase)
                  ++ round_schedule (cpu_count / 2) (env EdgePhase))
                 (initial g))) = Returned /\
  sys_graph (fst (run cpu_count host port
                    (round_schedule (cpu_count / 2) (env NodePhase)
                     ++ round_schedule (cpu_count / 2) (env EdgePhase))
                    (initial g))) =
    snd (fst (nx_graph_to_memgraph_parallel cpu_count env g host port)).
Proof.
  unfold nx_graph_to_memgraph_parallel.
  destruct (round_end (run_round (cpu_count / 2) host port env NodePhase g))
    as [o|] eqn:H1.
  { cbn [fst]. intros ->. now apply round_end_not_returned in H1. }
  destruct (round_end (run_round (cpu_count / 2) host port env EdgePhase
                         (round_graph (run_round (cpu_count / 2) host port env
                                         NodePhase g))))
    as [o|] eqn:H2.
  { cbn [fst]. intros ->. now apply round_end_not_returned in H2. }
  intros _. cbn [fst snd].
  destruct (completed_round_is_scheduled env NodePhase (initial g) eq_refl H1)
    as (chunks1 & Hr1).
  match type of Hr1 with
  | _ = (?s1, _) =>
      destruct (completed_round_is_scheduled env EdgePhase s1 eq_refl H2)
        as (chunks2 & Hr2)
  end.
  rewrite (run_app_eq _ _ _ _ _ _ _ Hr1 Hr2). cbn [fst sys_pc sys_graph].
  split; reflexivity.
Qed.

End Agreement.

(* ===================================================================== *)
(** ** More on statement generation *)
(* ===================================================================== *)

Lemma nodes_getitem_in (n : Z) (ns : list (Z * dict)) :
  In n (map fst ns) -> exists d, nodes_getitem n ns = Some d.
Proof.
  induction ns as [|[n' d] ns IH]; cbn [map In nodes_getitem fst];
    [contradiction|].
  intros [->|Hin].
  - rewrite Z.eqb_refl. eauto.
  - destruct (Z.eqb n' n); eauto.
Qed.



Lemma dict_pop_idem (k : string) (d : dict) :
  dict_pop k (dict_pop k d) = dict_pop k d.
Proof.
  unfold dict_pop. induction d as [|[k0 v0] d IH]; cbn [filter fst];
    [reflexivity|].
  destruct (String.eqb k0 k) eqn:E; cbn [negb filter fst]; [exact IH|].
  rewrite E. cbn [negb]. now rewrite IH.
Qed.

Section MoreStatements.
Context `{enc : LiteralEncoder}.

(** The edge loop on endpoints that are nodes: no exception, one statement
    an edge, every edge mapping without its [type]. *)
Lemma edges_loop_total (ns : list (Z * dict)) (es : list (Z * Z * dict)) :
  Forall (fun e => In (fst (fst e)) (map fst ns) /\
                   In (snd (fst e)) (map fst ns)) es ->
  edges_loop ns es =
  (map (fun e =>
          edge_statement
            (to_cypher_labels (endpoint_labels ns (fst (fst e)))) (fst (fst e))
            (to_cypher_labels (endpoint_labels ns (snd (fst e)))) (snd (fst e))
            (to_cypher_labels (dict_get_default TYPE (VStr "TO") (snd e)))
            (to_cypher_properties (edge_properties (snd e)))) es,
   None,
   map (fun e => (fst e, dict_pop TYPE (snd e))) es).
Proof.
  induction 1 as [|[[n1 n2] data] es [H1 H2] Hes IH]; [reflexivity|].
  cbn [fst snd] in H1, H2.
  destruct (nodes_getitem_in n1 ns H1) as [d1 E1].
  destruct (nodes_getitem_in n2 ns H2) as [d2 E2].
  cbn [edges_loop map fst snd]. unfold endpoint_labels.
  rewrite E1, E2, IH. reflexivity.
Qed.



End MoreStatements.

Lemma endpoints_are_nodes_plain_pair : endpoints_are_nodes plain_pair.
Proof.
  unfold endpoints_are_nodes.
  constructor; [split; cbn; auto | constructor].
Qed.




(* ===================================================================== *)
(** ** More on partitioning *)
(* ===================================================================== *)

(** X4.  The partitioner cuts the statement list into the chunks, in
    order, and a rest of [L % W] statements at its end that is in no
    chunk; nothing is left out exactly when [W] divides [L]. *)
Theorem partition_leaves_out_the_tail (queries : list string) (W : nat) :
  1 <= W ->
  let L := length queries in
  let chunks := process_queries queries W (L / W) in
  queries = concat chunks ++ skipn (L / W * W) queries /\
  length (skipn (L / W * W) queries) = L mod W /\
  L mod W < W /\
  (concat chunks = queries <-> L mod W = 0).
Proof.
  intros HW L chunks.
  assert (Hc : concat chunks = firstn (L / W * W) queries).
  { unfold chunks. now rewrite process_queries_concat. }
  assert (Hdm : L = W * (L / W) + L mod W) by (apply Nat.div_mod_eq).
  assert (Hlen : length (skipn (L / W * W) queries) = L mod W).
  { rewrite length_skipn. fold L. lia. }
  split; [now rewrite Hc, firstn_skipn|]. split; [exact Hlen|]. split.
  { apply Nat.mod_upper_bound. lia. }
  split.
  - intros Heq. apply (f_equal (@length string)) in Heq.
    rewrite Hc, length_firstn in Heq. fold L in Heq. lia.
  - intros H0. rewrite Hc. apply firstn_all2. fold L. lia.
Qed.

Lemma partition_leaves_out_the_tail_witness :
  ten_statements =
    concat (process_queries ten_statements 3 3) ++ ["s9"].
Proof.
  destruct (partition_leaves_out_the_tail ten_statements 3 ltac:(lia))
    as (H & _).
  exact H.
Defined.

(* ===================================================================== *)
(** ** More on one worker *)
(* ===================================================================== *)

(** A step of a worker takes its statement from its list and adds none to
    it. *)
Lemma wstep_queue (host : string) (port : Z) (a : answer) (w w' : wstate)
    (evs : list event) :
  wstep host port a w = Some (w', evs) ->
  incl (queue_of w') (queue_of w) /\
  Forall (fun q => In q (queue_of w)) (attempts evs).
Proof.
  destruct w as [qs|qs| |]; destruct a as [| |r]; cbn [wstep];
    try discriminate.
  - destruct (loop_test_cases qs) as [-> | ->]; intros [= <- <-];
      cbn [queue_of]; split; try constructor;
      [apply incl_nil_l | apply incl_refl].
  - intros [= <- <-]. split; [apply incl_nil_l | constructor].
  - intros [= Hb]. cbn [queue_of].
    destruct (pop_cases qs) as [->|(rest & query & ->)].
    + cbn in Hb. injection Hb as <- <-. split; [apply incl_nil_l | constructor].
    + rewrite loop_body_snoc in Hb.
      assert (Hq : In query (rest ++ [query]))
        by (apply in_or_app; right; now left).
      destruct r; injection Hb as <- <-; cbn [queue_of];
        try (split; [apply incl_nil_l | repeat constructor; exact Hq]).
      * destruct (loop_test_cases rest) as [Hl | Hl]; rewrite Hl;
          cbn [fst snd queue_of]; split;
          try (repeat constructor; exact Hq).
        -- apply incl_nil_l.
        -- apply incl_appl, incl_refl.
      * split; [apply incl_refl | repeat constructor; exact Hq].
Qed.

Lemma wrun_queue (host : string) (port : Z) (answers : list answer)
    (w : wstate) :
  incl (queue_of (fst (wrun host port answers w))) (queue_of w) /\
  Forall (fun q => In q (queue_of w)) (attempts (snd (wrun host port answers w))).
Proof.
  revert w. induction answers as [|a answers IH]; intros w.
  - split; [apply incl_refl | constructor].
  - cbn [wrun].
    destruct (wstep host port a w) as [[w' evs]|] eqn:Hs; [|apply IH].
    destruct (wstep_queue host port a w w' evs Hs) as [Hq Hev].
    destruct (IH w') as [Hq' Hev'].
    destruct (wrun host port answers w') as [w'' evs']. cbn [fst snd] in *.
    split.
    + eapply incl_tran; eauto.
    + rewrite attempts_app. apply Forall_app. split; [exact Hev|].
      eapply Forall_impl; [|exact Hev']. intros q Hin. now apply Hq.
Qed.

Section MoreWorker.
Variables (host : string) (port : Z).

(** X5.  Whatever the database answers, a worker attempts only statements
    of the list it was called with, and the statements it still holds are
    statements of that list. *)
Theorem worker_attempts_only_its_statements (queries : list string)
    (answers : list answer) :
  Forall (fun q => In q queries)
         (attempts (snd (_insert_queries queries host port answers))) /\
  incl (queue_of (fst (_insert_queries queries host port answers))) queries.
Proof.
  unfold _insert_queries.
  destruct (wrun_queue host port answers (Connecting queries)) as [Hq Hev].
  split; [exact Hev | exact Hq].
Qed.

Lemma followed_by_commit_exit (t : list event) :
  followed_by_commit (Exit :: t) = followed_by_commit t.
Proof. reflexivity. Qed.

Lemma firstn_snoc_le {A : Type} (n : nat) (l : list A) (x : A) :
  n <= length l -> firstn n (l ++ [x]) = firstn n l.
Proof.
  intros Hn. rewrite firstn_app.
  replace (n - length l) with 0 by lia. cbn [firstn]. apply app_nil_r.
Qed.

(** The loop against replies that execute or reject: the statements that
    got their commit are the last ones of the list, from the last on, one
    for every execution that went through. *)
Lemma loop_commits_from_the_tail (rs : list response) (queries : list string) :
  Forall executes_or_rejects rs ->
  followed_by_commit
    (snd (loop_test queries)
     ++ snd (wrun host port (map Reply rs) (fst (loop_test queries)))) =
    firstn (successes rs) (rev queries) /\
  fst (wrun host port (map Reply rs) (fst (loop_test queries))) =
    fst (loop_test (firstn (length queries - successes rs) queries)).
Proof.
  intros Hrs. revert queries.
  induction Hrs as [|r rs Hr Hrs IH]; intros queries.
  - cbn [map wrun fst snd successes filter length]. rewrite app_nil_r.
    rewrite Nat.sub_0_r, firstn_all.
    destruct (loop_test_cases queries) as [-> | ->]; now cbn.
  - destruct (pop_cases queries) as [->|(rest & query & ->)].
    + cbn [loop_test fst snd length Nat.sub firstn rev].
      rewrite wrun_terminated by reflexivity.
      now rewrite firstn_nil.
    + rewrite loop_test_snoc. cbn [fst snd app map].
      rewrite (wrun_step_eq host port (Reply r) (map Reply rs) _
                 (fst (loop_body r (rest ++ [query])))
                 (snd (loop_body r (rest ++ [query]))))
        by (cbn [wstep]; now destruct (loop_body r (rest ++ [query]))).
      cbn [fst snd]. rewrite loop_body_snoc.
      rewrite rev_app_distr, length_app. cbn [rev app length].
      destruct Hr as [-> | [msg ->]]; cbn [fst snd successes filter is_executed length].
      * destruct (IH rest) as [Hc Hw]. fold (successes rs).
        split.
        -- cbn [app followed_by_commit firstn]. f_equal.
           destruct (loop_test_cases rest) as [Hl | Hl]; rewrite Hl in *;
             cbn [fst snd app] in *; exact Hc.
        -- rewrite Hw. replace (length rest + 1 - S (successes rs))
             with (length rest - successes rs) by lia.
           now rewrite firstn_snoc_le by lia.
      * specialize (IH (rest ++ [query])).
        rewrite loop_test_snoc in IH. cbn [fst snd app] in IH.
        rewrite rev_app_distr, length_app in IH. cbn [rev app length] in IH.
        fold (successes rs). destruct IH as [Hc Hw].
        split; [|exact Hw].
        cbn [app followed_by_commit]. exact Hc.
Qed.

(** X6.  Against a database that executes or rejects, rejections only
    delay: the statements that get their commit are the statements of the
    chunk from the last one backwards, each once, as many as executions
    went through; the worker still holds the statements before them, in
    their order, and it has returned exactly when none is left. *)
Theorem commits_run_backwards_through_the_chunk (queries : list string)
    (rs : list response) :
  Forall executes_or_rejects rs ->
  followed_by_commit
    (snd (_insert_queries queries host port (Connected :: map Reply rs))) =
    firstn (successes rs) (rev queries) /\
  queue_of (fst (_insert_queries queries host port (Connected :: map Reply rs))) =
    firstn (length queries - successes rs) queries /\
  (fst (_insert_queries queries host port (Connected :: map Reply rs)) = Finished
   <-> length queries <= successes rs).
Proof.
  intros Hrs. unfold _insert_queries.
  rewrite (wrun_step_eq host port Connected (map Reply rs) (Connecting queries)
             (fst (loop_test queries))
             (Connect host port :: snd (loop_test queries)))
    by (cbn [wstep]; now destruct (loop_test queries)).
  cbn [fst snd].
  destruct (loop_commits_from_the_tail rs queries Hrs) as [Hc Hw].
  split; [exact Hc|]. rewrite Hw.
  set (left := firstn (length queries - successes rs) queries).
  assert (Hleft : length left = length queries - successes rs).
  { unfold left. rewrite length_firstn. lia. }
  split.
  - now destruct left.
  - destruct left as [|q left'] eqn:E; cbn [loop_test fst]; cbn [length] in Hleft.
    + split; [lia | reflexivity].
    + split; [discriminate | lia].
Qed.

End MoreWorker.

Lemma commits_run_backwards_through_the_chunk_witness :
  followed_by_commit
    (snd (_insert_queries ["a"; "b"; "c"] "127.0.0.1" 7687
            (Connected :: map Reply [DatabaseError "conflict"; Executed;
                                     DatabaseError "conflict"; Executed]))) =
  ["c"; "b"].
Proof.
  destruct (commits_run_backwards_through_the_chunk "127.0.0.1" 7687
              ["a"; "b"; "c"]
              [DatabaseError "conflict"; Executed;
               DatabaseError "conflict"; Executed]
              ltac:(repeat (apply Forall_cons;
                            [first [left; reflexivity
                                   | right; eexists; reflexivity]|]);
                    apply Forall_nil))
    as (H & _).
  exact H.
Defined.

(* ===================================================================== *)
(** ** More on the parallel loader, worker by worker *)
(* ===================================================================== *)

Lemma partition_some (queries : list string) (W : nat) :
  1 <= W ->
  partition queries W = inl (process_queries queries W (length queries / W)).
Proof.
  intros HW. unfold partition, floordiv.
  destruct (Nat.eqb_spec W 0); [lia | reflexivity].
Qed.

Section MoreLoader.
Context `{enc : LiteralEncoder}.
Variables (host : string) (port : Z).

Lemma round_graph_eq (W : nat) (env : environment) (ph : phase) (g : Graph) :
  round_graph (run_round W host port env ph g) = graph_after (queries_gen ph g).
Proof.
  unfold run_round. destruct (list_of (queries_gen ph g)); [|reflexivity].
  now destruct (partition l W).
Qed.

Lemma run_round_partitioned (W : nat) (env : environment) (ph : phase)
    (g : Graph) (queries : list string) :
  1 <= W -> list_of (queries_gen ph g) = inl queries ->
  round_workers (run_round W host port env ph g) =
    run_processes host port (env ph)
      (process_queries queries W (length queries / W)) /\
  round_end (run_round W host port env ph g) =
    join_all ph 0 (run_processes host port (env ph)
                     (process_queries queries W (length queries / W))).
Proof.
  intros HW Hl. unfold run_round. rewrite Hl, partition_some by exact HW.
  split; reflexivity.
Qed.

(** X7.  In a round, whatever the database answers, every worker attempts
    only statements of its own chunk; so a statement of the rest that the
    partitioner leaves out (one that is not among the first
    [(L // W) * W]) is attempted by no worker. *)
Theorem workers_stay_in_their_chunks (W : nat) (env : environment)
    (ph : phase) (g : Graph) (queries : list string) :
  1 <= W ->
  list_of (queries_gen ph g) = inl queries ->
  Forall2 (fun chunk wt => Forall (fun q => In q chunk) (attempts (snd wt)))
          (process_queries queries W (length queries / W))
          (round_workers (run_round W host port env ph g)) /\
  Forall (fun wt =>
            Forall (fun q => In q (firstn (length queries / W * W) queries))
                   (attempts (snd wt)))
         (round_workers (run_round W host port env ph g)).
Proof.
  intros HW Hl.
  destruct (run_round_partitioned W env ph g queries HW Hl) as [-> _].
  set (chunks := process_queries queries W (length queries / W)).
  assert (Hgen : forall (cs : list (list string)) a,
             Forall2 (fun chunk wt =>
                        Forall (fun q => In q chunk) (attempts (snd wt)))
                     cs
                     (map (fun ic => _insert_queries (snd ic) host port
                                                     (env ph (fst ic)))
                          (combine (seq a (length cs)) cs))).
  { induction cs as [|c cs IH]; intros a; cbn [length seq combine map];
      constructor; [|apply IH].
    cbn [fst snd]. unfold _insert_queries.
    apply (wrun_queue host port (env ph a) (Connecting c)). }
  split; [apply Hgen|].
  assert (Hin : forall c, In c chunks ->
                          incl c (firstn (length queries / W * W) queries)).
  { intros c Hc q Hq. unfold chunks in Hc.
    rewrite <- (process_queries_concat queries W (length queries / W)).
    apply in_concat. eauto. }
  apply Forall_forall. intros wt Hwt. unfold run_processes in Hwt.
  apply in_map_iff in Hwt. destruct Hwt as ([i c] & <- & Hic).
  apply in_combine_r in Hic. cbn [fst snd].
  eapply Forall_impl;
    [|apply (wrun_queue host port (env ph i) (Connecting c))].
  intros q Hq. now apply (Hin c Hic).
Qed.

Lemma run_processes_connect_failed (answers : nat -> list answer)
    (chunks : list (list string)) :
  (forall i, exists rest, answers i = ConnectFailed :: rest) ->
  run_processes host port answers chunks =
    repeat (Died, [Connect host port; Exit]) (length chunks).
Proof.
  intros Hf. unfold run_processes.
  assert (Hgen : forall (cs : list (list string)) a,
             map (fun ic => _insert_queries (snd ic) host port (answers (fst ic)))
                 (combine (seq a (length cs)) cs) =
             repeat (Died, [Connect host port; Exit]) (length cs)).
  { induction cs as [|c cs IH]; intros a; [reflexivity|].
    cbn [length seq combine map repeat fst snd]. rewrite IH. f_equal.
    destruct (Hf a) as [rest ->]. unfold _insert_queries. cbn [wrun wstep].
    now rewrite wrun_terminated. }
  apply Hgen.
Qed.

Lemma join_all_died (ph : phase) (i n : nat) (t : list event) :
  join_all ph i (repeat (Died, t) n) = None.
Proof. revert i. induction n as [|n IH]; intros i; [reflexivity | apply IH]. Qed.

(** X8.  When [mgclient.connect] raises in every worker (the database is
    not reachable), the call still returns normally, on every graph and
    with two CPUs or more: each of the processes of each round dies at its
    connection attempt, and no statement is attempted. *)
Theorem unreachable_database_goes_unnoticed (cpu_count : nat)
    (env : environment) (g : Graph) :
  2 <= cpu_count ->
  endpoints_are_nodes g ->
  (forall ph i, exists rest, env ph i = ConnectFailed :: rest) ->
  nx_graph_to_memgraph_parallel cpu_count env g host port =
    (ReturnedNone, graph_after (nx_to_cypher g),
     [(NodePhase, repeat (Died, [Connect host port; Exit]) (cpu_count / 2));
      (EdgePhase, repeat (Died, [Connect host port; Exit]) (cpu_count / 2))]).
Proof.
  intros Hcpu Hwf Henv.
  assert (HW : 1 <= cpu_count / 2)
    by (apply Nat.div_le_lower_bound; lia).
  assert (Hround : forall ph gr queries,
             list_of (queries_gen ph gr) = inl queries ->
             round_end (run_round (cpu_count / 2) host port env ph gr) = None /\
             round_workers (run_round (cpu_count / 2) host port env ph gr) =
               repeat (Died, [Connect host port; Exit]) (cpu_count / 2)).
  { intros ph gr queries Hl.
    destruct (run_round_partitioned (cpu_count / 2) env ph gr queries HW Hl)
      as [-> ->].
    rewrite run_processes_connect_failed by apply Henv.
    rewrite process_queries_length. split; [apply join_all_died | reflexivity]. }
  assert (Hn : list_of (queries_gen NodePhase g) =
               inl (yielded (_nx_nodes_to_cypher g))).
  { cbn [queries_gen]. now rewrite _nx_nodes_to_cypher_eq. }
  assert (He : exists queries,
             list_of (queries_gen EdgePhase (graph_after (_nx_nodes_to_cypher g))) =
             inl queries).
  { cbn [queries_gen]. rewrite _nx_nodes_to_cypher_eq. cbn [graph_after].
    rewrite _nx_edges_to_cypher_eq. cbn [nodes edges].
    rewrite edges_loop_total.
    2:{ rewrite map_map. cbn [fst]. exact Hwf. }
    cbn [fst snd]. unfold list_of. cbn [raised yielded]. eauto. }
  destruct He as [eq He].
  destruct (Hround NodePhase g _ Hn) as [Hend1 Hws1].
  unfold nx_graph_to_memgraph_parallel.
  rewrite Hend1, Hws1, round_graph_eq. cbn [queries_gen].
  destruct (Hround EdgePhase (graph_after (_nx_nodes_to_cypher g)) _ He)
    as [Hend2 Hws2].
  rewrite Hend2, Hws2, round_graph_eq. cbn [queries_gen].
  do 2 f_equal. unfold nx_to_cypher.
  rewrite _nx_nodes_to_cypher_eq. reflexivity.
Qed.

(** X9.  A call that returns leaves the caller's graph as one pass of
    [nx_to_cypher] leaves it: the nodes with their defaulted [id], the
    edges without their [type]. *)
Theorem returned_call_leaves_generated_graph (cpu_count : nat)
    (env : environment) (g : Graph) :
  fst (fst (nx_graph_to_memgraph_parallel cpu_count env g host port)) =
    ReturnedNone ->
  snd (fst (nx_graph_to_memgraph_parallel cpu_count env g host port)) =
    graph_after (nx_to_cypher g).
Proof.
  unfold nx_graph_to_memgraph_parallel.
  destruct (round_end (run_round (cpu_count / 2) host port env NodePhase g))
    as [o|] eqn:H1; cbn [fst snd].
  - intros ->. now apply round_end_not_returned in H1.
  - intros _. rewrite !round_graph_eq. cbn [queries_gen].
    unfold nx_to_cypher. rewrite _nx_nodes_to_cypher_eq. reflexivity.
Qed.

End MoreLoader.

Lemma workers_stay_in_their_chunks_witness :
  Forall (fun wt =>
            Forall (fun q => In q ["CREATE (:Person {id: 0});"; "CREATE ( {id: 1});"])
                   (attempts (snd wt)))
         (round_workers
            (@run_round spec_encoder 1 "127.0.0.1" 7687
               (fun _ _ => [Connected; Reply Executed]) NodePhase plain_pair)).
Proof.
  destruct (@workers_stay_in_their_chunks spec_encoder "127.0.0.1" 7687 1
              (fun _ _ => [Connected; Reply Executed]) NodePhase plain_pair
              ["CREATE (:Person {id: 0});"; "CREATE ( {id: 1});"]
              ltac:(lia) eq_refl) as (_ & H).
  exact H.
Defined.

Lemma unreachable_database_goes_unnoticed_witness :
  fst (fst (@nx_graph_to_memgraph_parallel spec_encoder 4
              (fun _ _ => [ConnectFailed]) plain_pair "127.0.0.1" 7687)) =
  ReturnedNone.
Proof.
  exact (f_equal (fun r => fst (fst r))
           (@unreachable_database_goes_unnoticed spec_encoder "127.0.0.1" 7687 4
              (fun _ _ => [ConnectFailed]) plain_pair
              ltac:(lia) endpoints_are_nodes_plain_pair
              ltac:(intros ph i; exists []; reflexivity))).
Defined.

Lemma returned_call_leaves_generated_graph_witness :
  snd (fst (@nx_graph_to_memgraph_parallel spec_encoder 2
              (fun _ _ => [Connected; Reply Executed; Reply Executed])
              plain_pair "127.0.0.1" 7687)) =
  graph_after (@nx_to_cypher spec_encoder plain_pair).
Proof.
  apply (@returned_call_leaves_generated_graph spec_encoder "127.0.0.1" 7687 2
           (fun _ _ => [Connected; Reply Executed; Reply Executed]) plain_pair).
  reflexivity.
Defined.

(* ===================================================================== *)
(** ** More on the parallel loader, interleaved *)
(* ===================================================================== *)

Section MoreInterleaving.
Context `{enc : LiteralEncoder}.
Variables (cpu_count : nat) (host : string) (port : Z).

(** A step in the node round leaves [processes] to the node round. *)
Lemma node_side_step_owner (act : action) (s s' : sys) (evs : list gevent) :
  node_side (cpu_count / 2) s ->
  step cpu_count host port act s = Some (s', evs) ->
  sys_owner s' = NodePhase.
Proof.
  intros [Hown Hpc] Hstep. destruct act as [|i a]; cbn [step] in Hstep.
  - unfold parent_step in Hstep.
    destruct Hpc as [[Hpc Hnil] | [(k & Hpc & Hlen) | (k & Hpc & Hlen & Hex)]];
      rewrite Hpc in Hstep.
    + destruct (list_of (queries_gen NodePhase (sys_graph s))) as [queries|e].
      * destruct (partition queries (cpu_count / 2)) as [chunks|e];
          injection Hstep as <- <-; [reflexivity | exact Hown].
      * injection Hstep as <- <-. exact Hown.
    + destruct (nth_error (sys_processes s) k) as [[q|w]|];
        try discriminate; injection Hstep as <- <-; exact Hown.
    + destruct (nth_error (sys_processes s) k) as [[q|w]|];
        try discriminate.
      * destruct (terminated w); try discriminate.
        injection Hstep as <- <-. exact Hown.
      * injection Hstep as <- <-. exact Hown.
  - apply child_step_inv in Hstep.
    destruct Hstep as (w & w' & evs0 & _ & _ & -> & _). exact Hown.
Qed.

(** What one step does in the edge round: it stays in the round and shows
    the exit of a process that terminates in it and the join of a process
    the parent joins in it; or every process has terminated and has been
    joined. *)
Lemma edge_round_step (act : action) (s s' : sys) (evs : list gevent) :
  edge_round (cpu_count / 2) s ->
  step cpu_count host port act s = Some (s', evs) ->
  (edge_round (cpu_count / 2) s' /\
   (forall i, exited s' i -> exited s i \/ In (Worker EdgePhase i Exit) evs) /\
   (forall i, joined_edge s' i ->
              joined_edge s i \/ In (ProcessJoined EdgePhase i) evs)) \/
  (sys_pc s' = Returned /\
   forall i, i < cpu_count / 2 -> exited s i /\ joined_edge s i).
Proof.
  intros [Hown Hpc] Hstep. destruct act as [|i a]; cbn [step] in Hstep.
  - unfold parent_step in Hstep.
    destruct Hpc as [(k & Hpc & Hlen) | (k & Hpc & Hlen & Hex)];
      rewrite Hpc in Hstep.
    + destruct (nth_error (sys_processes s) k) as [[q|w]|] eqn:Hn;
        try discriminate; injection Hstep as <- <-; left.
      * split; [|split].
        -- split; [exact Hown|]. left. exists (S k). cbn.
           split; [reflexivity|]. now rewrite length_list_set.
        -- intros i (w & Hi & Ht). cbn in Hi. left.
           destruct (Nat.eq_dec k i) as [<-|Hne].
           ++ rewrite (nth_error_list_set_eq k _ _ _ Hn) in Hi.
              injection Hi as <-. discriminate Ht.
           ++ rewrite nth_error_list_set_ne in Hi by exact Hne.
              exists w. auto.
        -- intros i (k' & Hk & _). discriminate.
      * split; [|split].
        -- split; [exact Hown|]. right. exists 0. cbn.
           split; [reflexivity|]. split; [exact Hlen|]. intros i Hi. lia.
        -- intros i Hi. left. exact Hi.
        -- intros i (k' & Hk & Hlt). injection Hk as <-. lia.
    + destruct (nth_error (sys_processes s) k) as [[q|w]|] eqn:Hn;
        try discriminate.
      * destruct (terminated w) eqn:Ht; try discriminate.
        injection Hstep as <- <-. left. split; [|split].
        -- split; [exact Hown|]. right. exists (S k). cbn.
           split; [reflexivity|]. split; [exact Hlen|]. intros i Hi.
           destruct (Nat.eq_dec i k) as [->|Hne].
           ++ exists w. auto.
           ++ apply Hex. lia.
        -- intros i Hi. left. exact Hi.
        -- intros i (k' & Hk & Hlt). injection Hk as <-.
           destruct (Nat.eq_dec i k) as [->|Hne].
           ++ right. now left.
           ++ left. exists k. split; [exact Hpc | lia].
      * injection Hstep as <- <-. apply nth_error_None in Hn.
        right. split; [reflexivity|]. intros i Hi. split.
        -- apply Hex. lia.
        -- exists k. split; [exact Hpc | lia].
  - apply child_step_inv in Hstep.
    destruct Hstep as (w & w' & evs0 & Hn & Hw & -> & ->).
    left. rewrite Hown. split; [|split].
    + split; [reflexivity|]. cbn [sys_pc sys_processes].
      destruct Hpc as [(k & Hpc & Hlen) | (k & Hpc & Hlen & Hex)].
      * left. exists k. now rewrite length_list_set.
      * right. exists k. rewrite length_list_set.
        split; [exact Hpc|]. split; [exact Hlen|].
        intros j Hj. destruct (Hex j Hj) as (wj & Hnj & Htj).
        exists wj. split; [|exact Htj]. cbn [sys_processes].
        rewrite nth_error_list_set_ne; [exact Hnj|].
        intros <-. rewrite Hn in Hnj. injection Hnj as <-.
        rewrite wstep_terminated in Hw by exact Htj. discriminate Hw.
    + intros j (wj & Hnj & Htj). cbn [sys_processes] in Hnj.
      destruct (Nat.eq_dec i j) as [<-|Hne].
      * rewrite (nth_error_list_set_eq i _ _ _ Hn) in Hnj.
        injection Hnj as <-. right.
        apply in_map. eapply wstep_exit; eauto.
      * rewrite nth_error_list_set_ne in Hnj by exact Hne.
        left. exists wj. auto.
    + intros j Hj. left. exact Hj.
Qed.

Lemma edge_round_returned (acts : list action) (s : sys) :
  edge_round (cpu_count / 2) s ->
  sys_pc (fst (run cpu_count host port acts s)) = Returned ->
  forall i, i < cpu_count / 2 ->
    (exited s i \/
     In (Worker EdgePhase i Exit) (snd (run cpu_count host port acts s))) /\
    (joined_edge s i \/
     In (ProcessJoined EdgePhase i) (snd (run cpu_count host port acts s))).
Proof.
  revert s. induction acts as [|act acts IH]; intros s Hs Hret i Hi.
  - cbn in Hret. destruct Hs as [_ [(k & Hpc & _) | (k & Hpc & _)]]; congruence.
  - cbn [run] in *.
    destruct (step cpu_count host port act s) as [[s' evs]|] eqn:Hstep;
      [|now apply IH].
    destruct (edge_round_step act s s' evs Hs Hstep)
      as [(Hs' & Hex & Hjn) | (_ & Hall)].
    + specialize (IH s' Hs').
      destruct (run cpu_count host port acts s') as [s'' t]. cbn [fst snd] in *.
      destruct (IH Hret i Hi) as [He Hj]. split.
      * destruct He as [He|He].
        -- destruct (Hex i He) as [H|H]; [now left|].
           right. apply in_or_app. now left.
        -- right. apply in_or_app. now right.
      * destruct Hj as [Hj|Hj].
        -- destruct (Hjn i Hj) as [H|H]; [now left|].
           right. apply in_or_app. now left.
        -- right. apply in_or_app. now right.
    + destruct (Hall i Hi). auto.
Qed.

(** From line 44 of the edge round with no process running. *)
Lemma edge_list_returned (acts : list action) (s : sys) :
  quiet s -> sys_pc s = AtList EdgePhase ->
  sys_pc (fst (run cpu_count host port acts s)) = Returned ->
  forall i, i < cpu_count / 2 ->
    In (Worker EdgePhase i Exit) (snd (run cpu_count host port acts s)) /\
    In (ProcessJoined EdgePhase i) (snd (run cpu_count host port acts s)).
Proof.
  intros Hq Hpc. induction acts as [|act acts IH]; intros Hret i Hi.
  - cbn in Hret. congruence.
  - cbn [run] in *. destruct act as [|j a]; cbn [step] in *.
    + unfold parent_step in *. rewrite Hpc in *.
      destruct (list_of (queries_gen EdgePhase (sys_graph s))) as [queries|e].
      * destruct (partition queries (cpu_count / 2)) as [chunks|e] eqn:Hp.
        -- match type of Hret with
           | context [run cpu_count host port acts ?s1] =>
               pose proof (edge_round_returned acts s1) as Hround;
               destruct (run cpu_count host port acts s1) as [s'' t]
           end.
           cbn [fst snd] in *.
           assert (Hlen : length chunks = cpu_count / 2).
           { unfold partition in Hp.
             destruct (floordiv (length queries) (cpu_count / 2));
               [|discriminate].
             injection Hp as <-. apply process_queries_length. }
           destruct (Hround
                       ltac:(split; [reflexivity|]; left; exists 0; cbn;
                             split; [reflexivity | now rewrite length_map])
                       Hret i Hi) as [[He|He] [Hj|Hj]].
           ++ destruct He as (w & Hn & _). cbn in Hn.
              rewrite nth_error_map in Hn.
              destruct (nth_error chunks i); discriminate.
           ++ destruct He as (w & Hn & _). cbn in Hn.
              rewrite nth_error_map in Hn.
              destruct (nth_error chunks i); discriminate.
           ++ destruct Hj as (k & Hk & _). discriminate.
           ++ split; right; assumption.
        -- rewrite (stopped_trace cpu_count host port acts _ e) in Hret
             by (try exact Hq; reflexivity).
           cbn in Hret. discriminate.
      * rewrite (stopped_trace cpu_count host port acts _ e) in Hret
          by (try exact Hq; reflexivity).
        cbn in Hret. discriminate.
    + rewrite quiet_child_step in * by exact Hq. now apply IH.
Qed.

Lemma node_side_returned (acts : list action) (s : sys) :
  node_side (cpu_count / 2) s ->
  sys_pc (fst (run cpu_count host port acts s)) = Returned ->
  forall i, i < cpu_count / 2 ->
    (exited s i \/
     In (Worker NodePhase i Exit) (snd (run cpu_count host port acts s))) /\
    (joined s i \/
     In (ProcessJoined NodePhase i) (snd (run cpu_count host port acts s))) /\
    In (Worker EdgePhase i Exit) (snd (run cpu_count host port acts s)) /\
    In (ProcessJoined EdgePhase i) (snd (run cpu_count host port acts s)).
Proof.
  revert s. induction acts as [|act acts IH]; intros s Hs Hret i Hi.
  - cbn in Hret.
    destruct Hs as [_ [[Hpc _] | [(k & Hpc & _) | (k & Hpc & _)]]]; congruence.
  - cbn [run] in *.
    destruct (step cpu_count host port act s) as [[s' evs]|] eqn:Hstep;
      [|now apply IH].
    pose proof (node_side_step_owner act s s' evs Hs Hstep) as Hown'.
    destruct (node_side_step cpu_count host port act s s' evs Hs Hstep)
      as [(Hs' & _ & Hex & Hjn & _ & _)
         | [(-> & Hq & (ex & Hpc')) | (-> & Hs' & _ & Hall)]].
    + specialize (IH s' Hs').
      destruct (run cpu_count host port acts s') as [s'' t]. cbn [fst snd] in *.
      destruct (IH Hret i Hi) as (He & Hj & Hee & Hje).
      split; [|split; [|split]].
      * destruct He as [He|He].
        -- destruct (Hex i He) as [H|H]; [now left|].
           right. apply in_or_app. now left.
        -- right. apply in_or_app. now right.
      * destruct Hj as [Hj|Hj].
        -- destruct (Hjn i Hj) as [H|H]; [now left|].
           right. apply in_or_app. now left.
        -- right. apply in_or_app. now right.
      * apply in_or_app. now right.
      * apply in_or_app. now right.
    + rewrite (stopped_trace cpu_count host port acts s' ex Hq Hpc') in Hret.
      cbn in Hret. congruence.
    + destruct Hs' as [[Hown _] | [Hq [Hpc' | [ex Hpc']]]].
      * congruence.
      * pose proof (edge_list_returned acts s' Hq Hpc') as Hedge.
        destruct (run cpu_count host port acts s') as [s'' t].
        cbn [fst snd app] in *.
        destruct (Hedge Hret i Hi) as [Hee Hje].
        destruct (Hall i Hi) as [He Hj]. auto.
      * rewrite (stopped_trace cpu_count host port acts s' ex Hq Hpc') in Hret.
        cbn in Hret. congruence.
Qed.

(** X10.  Under every schedule of the parent and the processes, whatever
    the database answers: when the call has returned, every process of the
    node round and every process of the edge round has terminated and the
    parent has joined it. *)
Theorem call_returns_after_all_joins (g : Graph) (acts : list action) :
  sys_pc (fst (run cpu_count host port acts (initial g))) = Returned ->
  forall ph i, i < cpu_count / 2 ->
    In (Worker ph i Exit) (snd (run cpu_count host port acts (initial g))) /\
    In (ProcessJoined ph i) (snd (run cpu_count host port acts (initial g))).
Proof.
  intros Hret ph i Hi.
  assert (Hinit : node_side (cpu_count / 2) (initial g)).
  { split; [reflexivity|]. left. split; reflexivity. }
  destruct (node_side_returned acts (initial g) Hinit Hret i Hi)
    as (He & Hj & Hee & Hje).
  destruct ph; [|auto].
  split.
  - destruct He as [(w & Hn & _)|He]; [|exact He].
    cbn in Hn. destruct i; discriminate Hn.
  - destruct Hj as [(k & Hk & _)|Hj]; [discriminate Hk | exact Hj].
Qed.

End MoreInterleaving.

Lemma call_returns_after_all_joins_witness :
  In (ProcessJoined EdgePhase 0)
     (snd (@run spec_encoder 2 "127.0.0.1" 7687 one_process_schedule
             (initial plain_pair))).
Proof.
  apply (@call_returns_after_all_joins spec_encoder 2 "127.0.0.1" 7687
           plain_pair one_process_schedule eq_refl EdgePhase 0).
  cbn. lia.
Defined.

(* ===================================================================== *)
(** ** What reaches the caller, and what a pass leaves *)
(* ===================================================================== *)

Section Caller.
Context `{enc : LiteralEncoder}.
Variables (host : string) (port : Z).

Lemma edge_queries_of_nodes (g : Graph) :
  endpoints_are_nodes g ->
  exists queries,
    list_of (queries_gen EdgePhase (graph_after (_nx_nodes_to_cypher g))) =
    inl queries.
Proof.
  intros Hwf. cbn [queries_gen]. rewrite _nx_nodes_to_cypher_eq.
  cbn [graph_after]. rewrite _nx_edges_to_cypher_eq. cbn [nodes edges].
  rewrite edges_loop_total.
  2:{ rewrite map_map. cbn [fst]. exact Hwf. }
  cbn [fst snd]. unfold list_of. cbn [raised yielded]. eauto.
Qed.

(** X11.  With two CPUs or more, on a graph whose edges join its nodes, the
    call raises nothing, whatever happens in the workers: a database
    error, a failed connection, a failed commit or any other exception
    inside a worker does not reach the caller.  The call returns, or it
    waits in a [join]. *)
Theorem worker_failures_never_reach_the_caller (cpu_count : nat)
    (env : environment) (g : Graph) :
  2 <= cpu_count ->
  endpoints_are_nodes g ->
  fst (fst (nx_graph_to_memgraph_parallel cpu_count env g host port)) =
    ReturnedNone \/
  exists ph i,
    fst (fst (nx_graph_to_memgraph_parallel cpu_count env g host port)) =
    Blocked ph i.
Proof.
  intros Hcpu Hwf.
  assert (HW : 1 <= cpu_count / 2) by (apply Nat.div_le_lower_bound; lia).
  assert (Hn : list_of (queries_gen NodePhase g) =
               inl (yielded (_nx_nodes_to_cypher g))).
  { cbn [queries_gen]. now rewrite _nx_nodes_to_cypher_eq. }
  destruct (edge_queries_of_nodes g Hwf) as [eq He].
  unfold nx_graph_to_memgraph_parallel.
  destruct (run_round_partitioned host port (cpu_count / 2) env NodePhase g _
              HW Hn) as [_ Hend1].
  rewrite Hend1.
  match goal with
  | |- context [join_all NodePhase 0 ?ws] =>
      destruct (join_all NodePhase 0 ws) as [o|] eqn:Hj1
  end.
  { apply join_all_blocked in Hj1. destruct Hj1 as [j ->]. cbn. eauto. }
  rewrite round_graph_eq. cbn [queries_gen fst].
  destruct (run_round_partitioned host port (cpu_count / 2) env EdgePhase
              (graph_after (_nx_nodes_to_cypher g)) _ HW He) as [_ Hend2].
  rewrite Hend2.
  match goal with
  | |- context [join_all EdgePhase 0 ?ws] =>
      destruct (join_all EdgePhase 0 ws) as [o|] eqn:Hj2
  end.
  - apply join_all_blocked in Hj2. destruct Hj2 as [j ->]. eauto.
  - now left.
Qed.

(** X12.  On a graph whose edges join its nodes, the first pass of
    [nx_to_cypher] is the only one that changes the graph: a pass on the
    graph the first pass left changes nothing, so every later pass yields
    the statements of the second. *)
Theorem generation_settles_after_one_pass (g : Graph) :
  endpoints_are_nodes g ->
  endpoints_are_nodes (graph_after (nx_to_cypher g)) /\
  graph_after (nx_to_cypher (graph_after (nx_to_cypher g))) =
    graph_after (nx_to_cypher g) /\
  yielded (nx_to_cypher (graph_after (nx_to_cypher (graph_after (nx_to_cypher g))))) =
    yielded (nx_to_cypher (graph_after (nx_to_cypher g))).
Proof.
  intros Hwf.
  set (inj := fun nd : Z * dict => (fst nd, with_default_id (fst nd) (snd nd))).
  set (popt := fun e : Z * Z * dict => (fst e, dict_pop TYPE (snd e))).
  assert (Hg1 : graph_after (nx_to_cypher g) =
                {| nodes := map inj (nodes g); edges := map popt (edges g) |}).
  { rewrite (nx_to_cypher_eq g). cbn [graph_after]. fold inj.
    rewrite edges_loop_total; [reflexivity|].
    unfold inj. rewrite map_map. cbn [fst]. exact Hwf. }
  assert (Hwf1 : endpoints_are_nodes
                   {| nodes := map inj (nodes g); edges := map popt (edges g) |}).
  { unfold endpoints_are_nodes in *. cbn [nodes edges].
    unfold inj at 1 2. rewrite map_map. cbn [fst].
    apply Forall_forall. intros e Hin. apply in_map_iff in Hin.
    destruct Hin as (e0 & <- & Hin0). cbn [fst popt].
    rewrite Forall_forall in Hwf. exact (Hwf e0 Hin0). }
  assert (Hfix : graph_after
                   (nx_to_cypher
                      {| nodes := map inj (nodes g); edges := map popt (edges g) |}) =
                 {| nodes := map inj (nodes g); edges := map popt (edges g) |}).
  { rewrite nx_to_cypher_eq. cbn [graph_after nodes edges]. fold inj.
    assert (Hinj : map inj (map inj (nodes g)) = map inj (nodes g)).
    { rewrite map_map. apply map_ext. intros [n d]. unfold inj. cbn [fst snd].
      now rewrite with_default_id_idem. }
    rewrite Hinj. rewrite edges_loop_total.
    2:{ exact Hwf1. }
    cbn [snd]. f_equal. rewrite map_map. apply map_ext.
    intros [nn d]. unfold popt. cbn [fst snd]. now rewrite dict_pop_idem. }
  rewrite Hg1. split; [exact Hwf1|]. split; [exact Hfix|]. now rewrite Hfix.
Qed.

End Caller.

Lemma worker_failures_never_reach_the_caller_witness :
  fst (fst (@nx_graph_to_memgraph_parallel spec_encoder 2
              (fun _ _ => [Connected; Reply OtherError]) plain_pair
              "127.0.0.1" 7687)) = ReturnedNone \/
  exists ph i,
    fst (fst (@nx_graph_to_memgraph_parallel spec_encoder 2
                (fun _ _ => [Connected; Reply OtherError]) plain_pair
                "127.0.0.1" 7687)) = Blocked ph i.
Proof.
  exact (@worker_failures_never_reach_the_caller spec_encoder "127.0.0.1" 7687
           2 (fun _ _ => [Connected; Reply OtherError]) plain_pair
           ltac:(lia) endpoints_are_nodes_plain_pair).
Defined.

Lemma generation_settles_after_one_pass_witness :
  graph_after (@nx_to_cypher spec_encoder
                 (graph_after (@nx_to_cypher spec_encoder person_city_own_id))) =
  graph_after (@nx_to_cypher spec_encoder person_city_own_id).
Proof.
  destruct (@generation_settles_after_one_pass spec_encoder person_city_own_id
              ltac:(unfold endpoints_are_nodes;
                    constructor; [split; cbn; auto | constructor]))
    as (_ & H & _).
  exact H.
Defined.

(* ===================================================================== *)
(** ** What the processes of the node round have done before the edge
       round *)
(* ===================================================================== *)

Section WorkerAnswers.
Variables (host : string) (port : Z).

(** A connected worker drops the answers to connection attempts. *)
Lemma wrun_replies (answers : list answer) (w : wstate) :
  (forall qs, w <> Connecting qs) ->
  wrun host port answers w = wrun host port (map Reply (replies answers)) w.
Proof.
  revert w. induction answers as [|a answers IH]; intros w Hw; [reflexivity|].
  destruct a as [| |r].
  - cbn [wrun replies flat_map app].
    destruct w as [qs| | |]; [now contradiction (Hw qs) | | |];
      cbn [wstep]; now apply IH.
  - cbn [wrun replies flat_map app].
    destruct w as [qs| | |]; [now contradiction (Hw qs) | | |];
      cbn [wstep]; now apply IH.
  - cbn [replies flat_map app map wrun]. fold (replies answers).
    destruct (wstep host port (Reply r) w) as [[w' evs]|] eqn:Hs;
      [|now apply IH].
    rewrite IH; [reflexivity|].
    destruct w as [qs|qs| |]; try discriminate Hs.
    cbn [wstep] in Hs. injection Hs as Hb.
    pose proof (proj1 (loop_body_no_connect r qs)) as Hn.
    now rewrite Hb in Hn.
Qed.

Lemma replies_well (answers : list answer) :
  Forall answers_well answers -> Forall executes_or_rejects (replies answers).
Proof.
  induction 1 as [|a answers Ha Hr IH]; [constructor|].
  destruct Ha as [-> | (r & -> & Hr')]; cbn [replies flat_map app].
  - exact IH.
  - constructor; assumption.
Qed.

(** A worker that is answered well and has terminated has executed every
    statement of its chunk, from the last one backwards, each followed by
    its commit. *)
Lemma well_answered_worker_commits_all (answers : list answer)
    (chunk : list string) :
  Forall answers_well answers ->
  terminated (fst (wrun host port answers (Connecting chunk))) = true ->
  followed_by_commit (snd (wrun host port answers (Connecting chunk))) =
    rev chunk.
Proof.
  induction 1 as [|a answers Ha Hr IH]; intros Hterm; [discriminate Hterm|].
  destruct Ha as [-> | (r & -> & Hr')].
  - rewrite (wrun_step_eq host port Connected answers (Connecting chunk)
               (fst (loop_test chunk))
               (Connect host port :: snd (loop_test chunk))) in *
      by (cbn [wstep]; now destruct (loop_test chunk)).
    cbn [fst snd] in *.
    assert (Hnc : forall qs, fst (loop_test chunk) <> Connecting qs)
      by (destruct (loop_test_cases chunk) as [-> | ->]; discriminate).
    rewrite (wrun_replies answers _ Hnc) in *.
    destruct (loop_commits_from_the_tail host port (replies answers) chunk
                (replies_well answers Hr)) as [Hc Hw].
    change (followed_by_commit
              (snd (loop_test chunk)
               ++ snd (wrun host port (map Reply (replies answers))
                            (fst (loop_test chunk)))) = rev chunk).
    rewrite Hc. rewrite Hw in Hterm.
    apply firstn_all2. rewrite length_rev.
    destruct (firstn (length chunk - successes (replies answers)) chunk)
      as [|q l] eqn:E; [|discriminate Hterm].
    apply (f_equal (@length string)) in E. rewrite length_firstn in E.
    cbn [length] in E. lia.
  - cbn [wrun wstep] in *. now apply IH.
Qed.

End WorkerAnswers.

Lemma worker_events_app (ph : phase) (i : nat) (t1 t2 : list gevent) :
  worker_events ph i (t1 ++ t2) = worker_events ph i t1 ++ worker_events ph i t2.
Proof. apply flat_map_app. Qed.

Lemma phase_eqb_refl (ph : phase) : phase_eqb ph ph = true.
Proof. now destruct ph. Qed.

Lemma worker_events_own (ph : phase) (i : nat) (evs : list event) :
  worker_events ph i (map (Worker ph i) evs) = evs.
Proof.
  induction evs as [|ev evs IH]; [reflexivity|].
  cbn [map worker_events flat_map]. rewrite phase_eqb_refl, Nat.eqb_refl.
  cbn [andb app]. f_equal. exact IH.
Qed.

Lemma worker_events_of_another (ph ph' : phase) (i j : nat) (evs : list event) :
  i <> j -> worker_events ph i (map (Worker ph' j) evs) = [].
Proof.
  intros Hne. induction evs as [|ev evs IH]; [reflexivity|].
  cbn [map worker_events flat_map].
  destruct (Nat.eqb_spec i j); [contradiction|].
  rewrite andb_false_r. exact IH.
Qed.

Lemma worker_events_other_round (i : nat) (t : list gevent) :
  Forall (in_phase EdgePhase) t -> worker_events NodePhase i t = [].
Proof.
  induction 1 as [|e t He Ht IH]; [reflexivity|].
  cbn [worker_events flat_map]. fold (worker_events NodePhase i t).
  rewrite IH. destruct e as [ph c|ph j|ph j|ph j ev]; try reflexivity.
  unfold in_phase in He. cbn in He. subst ph. reflexivity.
Qed.

Lemma current_some_lt (s : sys) (i : nat) (w : wstate) :
  current s i = Some w -> i < length (sys_processes s).
Proof.
  unfold current. intros Hc. apply nth_error_Some.
  destruct (nth_error (sys_processes s) i); [discriminate | discriminate Hc].
Qed.

Section NodeWorkers.
Context `{enc : LiteralEncoder}.
Variables (cpu_count : nat) (host : string) (port : Z).

(** What a step in the node round is to process [i]: a step of its own, or
    nothing. *)
Lemma node_step_of_process (act : action) (s s' : sys) (evs : list gevent)
    (i : nat) (w0 : wstate) :
  node_side (cpu_count / 2) s ->
  step cpu_count host port act s = Some (s', evs) ->
  current s i = Some w0 ->
  (exists a w' evs0,
      act = Child i a /\ wstep host port a w0 = Some (w', evs0) /\
      current s' i = Some w' /\ worker_events NodePhase i evs = evs0) \/
  (current s' i = Some w0 /\ worker_events NodePhase i evs = []).
Proof.
  intros [Hown Hpc] Hstep Hcur. destruct act as [|j a]; cbn [step] in Hstep.
  - right. unfold parent_step in Hstep.
    destruct Hpc as [[Hpc Hnil] | [(k & Hpc & Hlen) | (k & Hpc & Hlen & Hex)]];
      rewrite Hpc in Hstep.
    + unfold current in Hcur. rewrite Hnil in Hcur.
      destruct i; discriminate Hcur.
    + destruct (nth_error (sys_processes s) k) as [[q|w]|] eqn:Hn;
        try discriminate; injection Hstep as <- <-.
      * split; [|reflexivity]. unfold current in *. cbn [sys_processes].
        destruct (Nat.eq_dec k i) as [<-|Hne].
        -- rewrite (nth_error_list_set_eq k _ _ _ Hn).
           rewrite Hn in Hcur. exact Hcur.
        -- now rewrite nth_error_list_set_ne by exact Hne.
      * split; [exact Hcur | reflexivity].
    + destruct (nth_error (sys_processes s) k) as [[q|w]|] eqn:Hn;
        try discriminate.
      * destruct (terminated w); try discriminate.
        injection Hstep as <- <-. split; [exact Hcur | reflexivity].
      * injection Hstep as <- <-. split; [exact Hcur | reflexivity].
  - apply child_step_inv in Hstep.
    destruct Hstep as (w & w' & evs0 & Hn & Hw & -> & ->).
    rewrite Hown. unfold current in *. cbn [sys_processes].
    destruct (Nat.eq_dec j i) as [->|Hne].
    + left. rewrite Hn in Hcur. injection Hcur as <-.
      exists a, w', evs0. split; [reflexivity|]. split; [exact Hw|].
      split; [now rewrite (nth_error_list_set_eq i _ _ _ Hn)|].
      apply worker_events_own.
    + right. rewrite nth_error_list_set_ne by exact Hne.
      split; [exact Hcur|]. apply worker_events_of_another. congruence.
Qed.

(** What process [i] of the node round shows in a trace is a run of
    [_insert_queries] against some of the answers of the schedule; and
    once something of the edge round shows, that run has terminated. *)
Lemma node_process_runs (acts : list action) (s : sys) (i : nat) (w0 : wstate) :
  node_side (cpu_count / 2) s ->
  current s i = Some w0 ->
  exists answers,
    worker_events NodePhase i (snd (run cpu_count host port acts s)) =
      snd (wrun host port answers w0) /\
    (well_answered acts -> Forall answers_well answers) /\
    ((exists e, In e (snd (run cpu_count host port acts s)) /\
                in_phase EdgePhase e) ->
     terminated (fst (wrun host port answers w0)) = true).
Proof.
  revert s w0. induction acts as [|act acts IH]; intros s w0 Hs Hcur.
  - exists []. cbn. split; [reflexivity|]. split; [constructor|].
    intros (e & [] & _).
  - cbn [run].
    destruct (step cpu_count host port act s) as [[s' evs]|] eqn:Hstep.
    2:{ destruct (IH s w0 Hs Hcur) as (answers & Hev & Hwell & Hterm).
        exists answers. split; [exact Hev|]. split; [|exact Hterm].
        intros Hw. apply Hwell. exact (Forall_inv_tail Hw). }
    destruct (node_side_step cpu_count host port act s s' evs Hs Hstep)
      as [(Hs' & Hevs & _)
         | [(-> & Hq & (ex & Hpc')) | (-> & Hs' & Hpc & Hall)]].
    + destruct (node_step_of_process act s s' evs i w0 Hs Hstep Hcur)
        as [(a & w' & evs0 & -> & Hw & Hcur' & Hproj) | (Hcur' & Hproj)].
      * destruct (IH s' w' Hs' Hcur') as (answers & Hev & Hwell & Hterm).
        exists (a :: answers).
        rewrite (wrun_step_eq host port a answers w0 w' evs0 Hw).
        destruct (run cpu_count host port acts s') as [s'' t].
        cbn [fst snd] in *.
        split; [|split].
        -- now rewrite worker_events_app, Hproj, Hev.
        -- intros Hwa. constructor.
           ++ exact (Forall_inv Hwa).
           ++ apply Hwell. exact (Forall_inv_tail Hwa).
        -- intros (e & Hin & He). apply Hterm. exists e. split; [|exact He].
           apply in_app_or in Hin. destruct Hin as [Hin|Hin]; [|exact Hin].
           rewrite Forall_forall in Hevs. specialize (Hevs e Hin).
           unfold in_phase in *. congruence.
      * destruct (IH s' w0 Hs' Hcur') as (answers & Hev & Hwell & Hterm).
        exists answers.
        destruct (run cpu_count host port acts s') as [s'' t].
        cbn [fst snd] in *.
        split; [|split].
        -- now rewrite worker_events_app, Hproj, Hev.
        -- intros Hwa. apply Hwell. exact (Forall_inv_tail Hwa).
        -- intros (e & Hin & He). apply Hterm. exists e. split; [|exact He].
           apply in_app_or in Hin. destruct Hin as [Hin|Hin]; [|exact Hin].
           rewrite Forall_forall in Hevs. specialize (Hevs e Hin).
           unfold in_phase in *. congruence.
    + rewrite (stopped_trace cpu_count host port acts s' ex Hq Hpc').
      exists []. cbn. split; [reflexivity|]. split; [constructor|].
      intros (e & [] & _).
    + pose proof (edge_side_trace cpu_count host port acts s' Hs') as Hedge.
      destruct (run cpu_count host port acts s') as [s'' t].
      cbn [fst snd app] in *.
      exists []. cbn [wrun fst snd].
      split; [now apply worker_events_other_round|].
      split; [constructor|]. intros _.
      assert (Hlt : i < cpu_count / 2).
      { pose proof (current_some_lt s i w0 Hcur) as Hl.
        destruct Hs as [_ [[Hp _] | [(k & _ & Hlen) | (k & _ & Hlen & _)]]];
          [contradiction | lia | lia]. }
      destruct (Hall i Hlt) as [(w & Hn & Ht) _].
      unfold current in Hcur. rewrite Hn in Hcur. now injection Hcur as <-.
Qed.

End NodeWorkers.

Section BeforeTheEdgeRound.
Context `{enc : LiteralEncoder}.
Variables (cpu_count : nat) (host : string) (port : Z).

(** A trace of the call starts with the partition of the node statements,
    and goes on from line 55 of the node round. *)
Lemma call_starts_with_partition (acts : list action) (g : Graph) :
  snd (run cpu_count host port acts (initial g)) = [] \/
  exists acts',
    (well_answered acts -> well_answered acts') /\
    snd (run cpu_count host port acts (initial g)) =
      Partitioned NodePhase
        (process_queries (yielded (_nx_nodes_to_cypher g)) (cpu_count / 2)
           (length (yielded (_nx_nodes_to_cypher g)) / (cpu_count / 2)))
      :: snd (run cpu_count host port acts'
                {| sys_pc := AtStart NodePhase 0;
                   sys_graph := graph_after (_nx_nodes_to_cypher g);
                   sys_processes :=
                     map Created
                       (process_queries (yielded (_nx_nodes_to_cypher g))
                          (cpu_count / 2)
                          (length (yielded (_nx_nodes_to_cypher g))
                           / (cpu_count / 2)));
                   sys_owner := NodePhase |}).
Proof.
  induction acts as [|act acts IH]; [now left|].
  destruct act as [|j a].
  2:{ assert (Hnone : step cpu_count host port (Child j a) (initial g) = None)
        by (cbn; now destruct j).
      cbn [run]. rewrite Hnone.
      destruct IH as [IH | (acts' & Hw & IH)]; [now left|].
      right. exists acts'. split; [|exact IH].
      intros Hwa. apply Hw. exact (Forall_inv_tail Hwa). }
  cbn [run step].
  - unfold parent_step, initial. cbn [sys_pc sys_graph sys_processes sys_owner].
    cbn [queries_gen]. unfold list_of.
    replace (raised (_nx_nodes_to_cypher g)) with (@None exn)
      by (now rewrite _nx_nodes_to_cypher_eq).
    unfold partition.
    destruct (floordiv (length (yielded (_nx_nodes_to_cypher g)))
                (cpu_count / 2)) as [chunk_size|e] eqn:Hfd.
    + right. exists acts. split; [intros Hw; exact (Forall_inv_tail Hw)|].
      assert (Hcs : chunk_size =
                    length (yielded (_nx_nodes_to_cypher g)) / (cpu_count / 2)).
      { unfold floordiv in Hfd.
        destruct (Nat.eqb (cpu_count / 2) 0); [discriminate|].
        now injection Hfd as <-. }
      subst chunk_size.
      match goal with
      | |- context [run cpu_count host port acts ?s1] =>
          destruct (run cpu_count host port acts s1) as [s'' t]
      end.
      reflexivity.
    + left. rewrite (stopped_trace cpu_count host port acts _ e);
        [reflexivity | constructor | reflexivity].
Qed.

(** C3, amended.  Under every schedule of the parent and the processes,
    whatever the database answers: when something of the edge round
    happens (the edge statements are partitioned, a process of the edge
    round is started, connects or executes a statement), the node
    statements have been partitioned into the [W] chunks of the first
    [(L // W) * W] of them, every process of the node round has terminated
    and has been joined, and all that happens afterwards belongs to the
    edge round; so whatever a process of the node round executes, all of it
    statements of its own chunk, it has executed by then.  When every
    connection is made and the database executes or rejects, every process
    of the node round has by then executed every statement of its chunk,
    from the last one backwards, each followed by its commit. *)
Theorem node_round_ends_before_edge_round (g : Graph) (acts : list action)
    (t1 t2 : list gevent) (e : gevent) :
  snd (run cpu_count host port acts (initial g)) = t1 ++ e :: t2 ->
  in_phase EdgePhase e ->
  let queries := yielded (_nx_nodes_to_cypher g) in
  let W := cpu_count / 2 in
  let chunks := process_queries queries W (length queries / W) in
  (In (Partitioned NodePhase chunks) t1 /\
   length chunks = W /\
   concat chunks = firstn (length queries / W * W) queries) /\
  (forall i, i < W ->
     In (Worker NodePhase i Exit) t1 /\ In (ProcessJoined NodePhase i) t1) /\
  Forall (in_phase EdgePhase) t2 /\
  (forall i chunk,
     nth_error chunks i = Some chunk ->
     Forall (fun q => In q chunk) (attempts (worker_events NodePhase i t1)) /\
     (well_answered acts ->
      followed_by_commit (worker_events NodePhase i t1) = rev chunk)).
Proof.
  intros Heq He queries W chunks.
  assert (Hinit : node_side (cpu_count / 2) (initial g)).
  { split; [reflexivity|]. left. split; reflexivity. }
  destruct (node_side_trace cpu_count host port acts (initial g) t1 t2 e
              Hinit Heq He) as (Ht2 & _ & Hi).
  destruct (call_starts_with_partition acts g) as [Hnil | (acts' & Hwell & Htr)].
  { rewrite Hnil in Heq. now destruct t1. }
  fold queries in Htr. fold W in Htr. fold chunks in Htr.
  set (s1 := {| sys_pc := AtStart NodePhase 0;
                sys_graph := graph_after (_nx_nodes_to_cypher g);
                sys_processes := map Created chunks;
                sys_owner := NodePhase |}) in *.
  rewrite Htr in Heq.
  destruct t1 as [|p t1'].
  { cbn [app] in Heq. injection Heq as <- _. discriminate He. }
  cbn [app] in Heq. injection Heq as <- Htail.
  assert (Hs1 : node_side (cpu_count / 2) s1).
  { split; [reflexivity|]. right. left. exists 0. split; [reflexivity|].
    cbn [s1 sys_processes]. rewrite length_map.
    apply process_queries_length. }
  split; [|split; [|split; [exact Ht2|]]].
  - split; [now left|]. split.
    + apply process_queries_length.
    + unfold chunks. now rewrite process_queries_concat.
  - intros i Hlt. destruct (Hi i Hlt) as [[Hex|Hex] [Hjn|Hjn]].
    + destruct Hex as (w & Hn & _). cbn in Hn. destruct i; discriminate Hn.
    + destruct Hex as (w & Hn & _). cbn in Hn. destruct i; discriminate Hn.
    + destruct Hjn as (k & Hk & _). discriminate Hk.
    + auto.
  - intros i chunk Hchunk.
    assert (Hcur : current s1 i = Some (Connecting chunk)).
    { unfold current, s1. cbn [sys_processes].
      now rewrite nth_error_map, Hchunk. }
    destruct (node_process_runs cpu_count host port acts' s1 i
                (Connecting chunk) Hs1 Hcur) as (answers & Hev & Hw & Hterm).
    rewrite Htail in Hev, Hterm.
    assert (Hproj : worker_events NodePhase i
                      (Partitioned NodePhase chunks :: t1') =
                    snd (wrun host port answers (Connecting chunk))).
    { rewrite <- Hev. rewrite worker_events_app.
      rewrite (worker_events_other_round i (e :: t2))
        by (constructor; assumption).
      now rewrite app_nil_r. }
    rewrite Hproj. split.
    + apply (wrun_queue host port answers (Connecting chunk)).
    + intros Hwa.
      apply well_answered_worker_commits_all; [now apply Hw, Hwell|].
      apply Hterm. exists e. split; [|exact He].
      apply in_or_app. right. now left.
Qed.

End BeforeTheEdgeRound.

Lemma node_round_ends_before_edge_round_witness :
  In (Worker NodePhase 0 Exit)
     (firstn 12 (snd (@run spec_encoder 2 "127.0.0.1" 7687
                        one_process_schedule (initial plain_pair)))) /\
  followed_by_commit
    (worker_events NodePhase 0
       (firstn 12 (snd (@run spec_encoder 2 "127.0.0.1" 7687
                          one_process_schedule (initial plain_pair))))) =
    ["CREATE ( {id: 1});"; "CREATE (:Person {id: 0});"].
Proof.
  destruct (@node_round_ends_before_edge_round spec_encoder 2 "127.0.0.1" 7687
              plain_pair one_process_schedule
              (firstn 12 (snd (@run spec_encoder 2 "127.0.0.1" 7687
                                 one_process_schedule (initial plain_pair))))
              (skipn 13 (snd (@run spec_encoder 2 "127.0.0.1" 7687
                                one_process_schedule (initial plain_pair))))
              (Worker EdgePhase 0
                 (Execute "MATCH (n:Person {id: 0}), (m {id: 1}) CREATE (n)-[:TO {since: 1999}]->(m);"))
              eq_refl eq_refl)
    as (_ & Hjoin & _ & Hrun).
  destruct (Hjoin 0 ltac:(cbn; lia)) as [Hexit _].
  destruct (Hrun 0 ["CREATE (:Person {id: 0});"; "CREATE ( {id: 1});"] eq_refl)
    as [_ Hcommit].
  split; [exact Hexit|].
  refine (Hcommit _).
  unfold well_answered, one_process_schedule.
  repeat (apply Forall_cons;
          [first [exact I
                 | left; reflexivity
                 | right; eexists; split; [reflexivity | left; reflexivity]]|]).
  apply Forall_nil.
Defined.

(** The claim that every node statement has been executed before an edge
    statement is executed fails: on [person_city] with two CPUs, when the
    connection of the process of the node round fails, the call returns
    having executed the edge statement and neither of the two node
    statements. *)
Lemma edge_statement_runs_without_node_statements :
  length (yielded (@_nx_nodes_to_cypher spec_encoder person_city)) = 2 /\
  sys_pc (fst (@run spec_encoder 2 "127.0.0.1" 7687
                 node_connection_fails_schedule (initial person_city))) =
    Returned /\
  attempts (worker_events NodePhase 0
              (snd (@run spec_encoder 2 "127.0.0.1" 7687
                      node_connection_fails_schedule (initial person_city)))) =
    [] /\
  attempts (worker_events EdgePhase 0
              (snd (@run spec_encoder 2 "127.0.0.1" 7687
                      node_connection_fails_schedule (initial person_city)))) =
    ["MATCH (n:Person {id: 0}), (m:City {id: 1}) CREATE (n)-[:LIVES_IN ]->(m);"].
Proof. repeat split; reflexivity. Qed.

(** A worker whose statement the database keeps rejecting stays in its
    loop. *)
Lemma rejected_worker_stays (host : string) (port : Z) (rest : list string)
    (query msg : string) (n : nat) :
  fst (_insert_queries (rest ++ [query]) host port
         (Connected :: repeat (Reply (DatabaseError msg)) n)) =
  Looping (rest ++ [query]).
Proof.
  unfold _insert_queries. cbn [wrun wstep]. rewrite loop_test_snoc.
  assert (H : forall k,
             fst (wrun host port (repeat (Reply (DatabaseError msg)) k)
                       (Looping (rest ++ [query]))) =
             Looping (rest ++ [query])).
  { induction k as [|k IH]; [reflexivity|].
    cbn [repeat wrun wstep]. rewrite loop_body_snoc.
    destruct (wrun host port (repeat (Reply (DatabaseError msg)) k)
                (Looping (rest ++ [query]))) as [w t].
    exact IH. }
  specialize (H n).
  destruct (wrun host port (repeat (Reply (DatabaseError msg)) n)
              (Looping (rest ++ [query]))) as [w t].
  exact H.
Qed.

(** The claim that the call returns normally after a round with
    [0 < L < W] fails for the node round: on [pair_with_loops] with six
    CPUs ([W = 3]) the node round has [L = 2] statements and ends, and the
    call then waits in the [join] of the first process of the edge round,
    whose statement the database rejects. *)
Lemma short_node_round_then_blocked_edge_round :
  6 / 2 = 3 /\
  length (yielded (@_nx_nodes_to_cypher spec_encoder pair_with_loops)) = 2 /\
  round_end (@run_round spec_encoder (6 / 2) "127.0.0.1" 7687
               (rejecting_edges 3) NodePhase pair_with_loops) = None /\
  fst (fst (@nx_graph_to_memgraph_parallel spec_encoder 6 (rejecting_edges 3)
              pair_with_loops "127.0.0.1" 7687)) = Blocked EdgePhase 0 /\
  fst (fst (@nx_graph_to_memgraph_parallel spec_encoder 6 (rejecting_edges 3)
              pair_with_loops "127.0.0.1" 7687)) <> ReturnedNone.
Proof. repeat split; try reflexivity. discriminate. Qed.

(** And it waits there however long the database goes on rejecting. *)
Lemma blocked_while_rejected (n : nat) :
  fst (fst (@nx_graph_to_memgraph_parallel spec_encoder 6 (rejecting_edges n)
              pair_with_loops "127.0.0.1" 7687)) = Blocked EdgePhase 0.
Proof.
  unfold nx_graph_to_memgraph_parallel.
  assert (H1 : @run_round spec_encoder (6 / 2) "127.0.0.1" 7687
                 (rejecting_edges n) NodePhase pair_with_loops =
               @run_round spec_encoder (6 / 2) "127.0.0.1" 7687
                 (rejecting_edges 0) NodePhase pair_with_loops)
    by reflexivity.
  rewrite H1.
  set (r1 := @run_round spec_encoder (6 / 2) "127.0.0.1" 7687
               (rejecting_edges 0) NodePhase pair_with_loops).
  assert (Hend : round_end r1 = None) by reflexivity.
  rewrite Hend.
  assert (Hl : list_of (@queries_gen spec_encoder EdgePhase (round_graph r1)) =
               inl (yielded (@queries_gen spec_encoder EdgePhase (round_graph r1))))
    by reflexivity.
  destruct (@run_round_partitioned spec_encoder "127.0.0.1" 7687 (6 / 2)
              (rejecting_edges n) EdgePhase (round_graph r1) _
              ltac:(cbn; lia) Hl) as [_ Hend2].
  rewrite Hend2. cbn [fst].
  assert (Hchunks :
            process_queries
              (yielded (@queries_gen spec_encoder EdgePhase (round_graph r1)))
              (6 / 2)
              (length (yielded (@queries_gen spec_encoder EdgePhase
                                  (round_graph r1))) / (6 / 2)) =
            [[] ++ ["MATCH (n {id: 0}), (m {id: 0}) CREATE (n)-[:TO ]->(m);"];
             [] ++ ["MATCH (n {id: 0}), (m {id: 1}) CREATE (n)-[:TO ]->(m);"];
             [] ++ ["MATCH (n {id: 1}), (m {id: 1}) CREATE (n)-[:TO ]->(m);"]])
    by reflexivity.
  rewrite Hchunks. unfold run_processes.
  cbn [length seq combine map fst snd join_all rejecting_edges].
  pose proof (rejected_worker_stays "127.0.0.1" 7687 []
                "MATCH (n {id: 0}), (m {id: 0}) CREATE (n)-[:TO ]->(m);"
                "conflict" n) as Hw.
  destruct (_insert_queries
              ([] ++ ["MATCH (n {id: 0}), (m {id: 0}) CREATE (n)-[:TO ]->(m);"])
              "127.0.0.1" 7687
              (Connected :: repeat (Reply (DatabaseError "conflict")) n))
    as [w t].
  cbn [fst] in Hw. rewrite Hw. reflexivity.
Qed.
